(** * watchdog: the kqueue emitter ([watchdog/observers/kqueue.py])

    A shallow embedding of the kqueue backend: the flag tests, the
    [KeventDescriptorSet] registry with its two indices and its lock, the
    [KeventDescriptor] constructor, and the [KqueueEmitter] methods that
    translate raw kevents into file system events.

    Python objects with mutable fields become one explicit state, [World],
    threaded through a small monad whose outcomes are: normal return, a raised
    exception, and a thread that waits for ever on a lock.  Dictionaries are
    [gmap]s and sets are [gset]s.

    The module is Python 2.  Two [continue] statements of it stand outside
    any loop, which the compiler refuses; see [continue_repair] for how the
    text is read there. *)

From stdpp Require Import gmap strings list fin_maps.
From Stdlib Require Import ZArith.

Open Scope Z_scope.

(** ** Constants of the platform *)

(** [select.KQ_NOTE_*], [select.KQ_FILTER_VNODE] and [select.KQ_EV_*] come from
    the interpreter's [select] module; the values are those of
    [<sys/event.h>]. *)
Definition KQ_NOTE_DELETE : Z := 0x1.
Definition KQ_NOTE_WRITE  : Z := 0x2.
Definition KQ_NOTE_EXTEND : Z := 0x4.
Definition KQ_NOTE_ATTRIB : Z := 0x8.
Definition KQ_NOTE_LINK   : Z := 0x10.
Definition KQ_NOTE_RENAME : Z := 0x20.
Definition KQ_NOTE_REVOKE : Z := 0x40.
Definition KQ_FILTER_VNODE : Z := -4.
Definition KQ_EV_ADD    : Z := 0x1.
Definition KQ_EV_ENABLE : Z := 0x4.
Definition KQ_EV_CLEAR  : Z := 0x20.

(** [MAX_EVENTS], the bound on a batch, and [O_EVTONLY], the open flag of
    Mac OS X for a handle that only serves notification. *)
Definition MAX_EVENTS : Z := 104896.
Definition O_EVTONLY : Z := 0x8000.

(** [errno.ENOENT] and [errno.EBADF]. *)
Definition ENOENT : Z := 2.
Definition EBADF  : Z := 9.

Definition WATCHDOG_KQ_FILTER : Z := KQ_FILTER_VNODE.
Definition WATCHDOG_KQ_EV_FLAGS : Z :=
  Z.lor (Z.lor KQ_EV_ADD KQ_EV_ENABLE) KQ_EV_CLEAR.
Definition WATCHDOG_KQ_FFLAGS : Z :=
  Z.lor (Z.lor (Z.lor (Z.lor (Z.lor (Z.lor
    KQ_NOTE_DELETE KQ_NOTE_WRITE) KQ_NOTE_EXTEND) KQ_NOTE_ATTRIB)
    KQ_NOTE_LINK) KQ_NOTE_RENAME) KQ_NOTE_REVOKE.

(** ** Data *)

(** A [select.kevent]: the watched file descriptor and the three masks.  The
    type defines rich comparison and no hash, so Python cannot hash a kevent
    (see [kevent_hash]).  The equality and the enumeration below are those of
    the record in the model, which the type of the state needs ([_kevents] is
    a field of it); they are not operations of the program. *)
Record kevent : Type := select_kevent {
  kev_ident  : Z;
  kev_filter : Z;
  kev_flags  : Z;
  kev_fflags : Z
}.

#[global] Instance kevent_eq_dec : EqDecision kevent.
Proof. solve_decision. Defined.

#[global] Instance kevent_countable : Countable kevent.
Proof.
  refine (inj_countable'
            (λ k, (kev_ident k, kev_filter k, kev_flags k, kev_fflags k))
            (λ t, let '(a, b, c, d) := t in select_kevent a b c d) _).
  by intros [].
Defined.

(** [KeventDescriptor]: the four private fields behind the properties
    [path], [is_directory], [fd] and [kevent]. *)
Record KeventDescriptor : Type := mkDescriptor {
  d_path : string;
  d_is_directory : bool;
  d_fd : Z;
  d_kevent : kevent
}.

(** [KeventDescriptor._key]: descriptors are equal, and hash, by this pair. *)
Definition _key (d : KeventDescriptor) : string * bool :=
  (d_path d, d_is_directory d).

(** [KeventDescriptorSet]: a Python set of descriptors (keyed by [_key], since
    [__eq__] and [__hash__] go through it), the two dictionaries, the set of
    kevents, and the state of the [threading.Lock] (held or free). *)
Record KeventDescriptorSet : Type := mkDescriptorSet {
  ds_descriptors : gmap (string * bool) KeventDescriptor;
  ds_descriptor_for_path : gmap string KeventDescriptor;
  ds_descriptor_for_fd : gmap Z KeventDescriptor;
  ds_kevents : gset kevent;
  ds_lock : bool
}.

(** [KeventDescriptorSet.__init__]. *)
Definition KeventDescriptorSet_init : KeventDescriptorSet :=
  mkDescriptorSet ∅ ∅ ∅ ∅ false.

(** Modelled from the spec: [watchdog.events] is not part of the sources at
    hand.  The spec's canonical event is a tagged variant over Created,
    Deleted, Modified, AttributeModified and Moved, times file or directory,
    carrying a source path and, for a move, a destination path. *)
Inductive EventType : Type :=
  | EVENT_TYPE_CREATED
  | EVENT_TYPE_DELETED
  | EVENT_TYPE_MODIFIED
  | EVENT_TYPE_ATTRIBUTE_MODIFIED
  | EVENT_TYPE_MOVED.

#[global] Instance EventType_eq_dec : EqDecision EventType.
Proof. solve_decision. Defined.

Record FileSystemEvent : Type := mkEvent {
  event_type : EventType;
  is_directory : bool;
  src_path : string;
  dest_path : option string
}.

#[global] Instance FileSystemEvent_eq_dec : EqDecision FileSystemEvent.
Proof. solve_decision. Defined.

(** The eight event classes the module imports. *)
Definition DirMovedEvent (src dest : string) : FileSystemEvent :=
  mkEvent EVENT_TYPE_MOVED true src (Some dest).
Definition DirDeletedEvent (src : string) : FileSystemEvent :=
  mkEvent EVENT_TYPE_DELETED true src None.
Definition DirCreatedEvent (src : string) : FileSystemEvent :=
  mkEvent EVENT_TYPE_CREATED true src None.
Definition DirModifiedEvent (src : string) : FileSystemEvent :=
  mkEvent EVENT_TYPE_MODIFIED true src None.
Definition FileMovedEvent (src dest : string) : FileSystemEvent :=
  mkEvent EVENT_TYPE_MOVED false src (Some dest).
Definition FileDeletedEvent (src : string) : FileSystemEvent :=
  mkEvent EVENT_TYPE_DELETED false src None.
Definition FileCreatedEvent (src : string) : FileSystemEvent :=
  mkEvent EVENT_TYPE_CREATED false src None.
Definition FileModifiedEvent (src : string) : FileSystemEvent :=
  mkEvent EVENT_TYPE_MODIFIED false src None.

(** Modelled from the spec: [watchdog.utils.dirsnapshot] is not part of the
    sources at hand.  A snapshot maps each path to its entry and each inode to
    its path; [stat_info] and [path_for_inode] fail on an absent key. *)
Record DirectoryEntry : Type := mkEntry {
  entry_is_directory : bool;
  st_ino : Z;
  st_mtime : Z;
  st_size : Z
}.

Record DirectorySnapshot : Type := mkSnapshot {
  snap_stat : gmap string DirectoryEntry;
  snap_inode : gmap Z string
}.

(** The watch of an emitter: [watch.path] and [watch.is_recursive]. *)
Record ObservedWatch : Type := mkWatch {
  watch_path : string;
  watch_is_recursive : bool
}.

(** Exceptions the modelled code can raise. *)
Inductive exn : Type :=
  | KeyError
  | NameError (name : string)
  | UnboundLocalError (name : string)
  | TypeError
  | ValueError
  | AttributeError
  | OSError (errno : Z).

#[global] Instance exn_eq_dec : EqDecision exn.
Proof. solve_decision. Defined.

(** Names that function bodies of the module read as globals although no
    statement of the module binds them: [kev] in
    [KeventDescriptor.__init__], [ref_snapshot] and [new_snapshot] in
    [_queue_events_except_renames_and_dir_modifications], and [watch],
    [dirs_modified] and [OSerror] in [queue_events].  A read of an unbound
    name raises [NameError]; the module namespace is mutable state of the
    process, so a binding is allowed for here.  A bound [kev] can hold any
    object (the field it is stored in is overwritten three lines later), so
    only its presence is recorded; an exception class is the predicate of its
    instances. *)
Record Globals : Type := mkGlobals {
  g_kev : bool;
  g_ref_snapshot : option DirectorySnapshot;
  g_new_snapshot : option DirectorySnapshot;
  g_watch : option ObservedWatch;
  g_dirs_modified : option (gset string);
  g_OSerror : option (exn → bool)
}.

(** The namespace of the module as it is loaded. *)
Definition module_globals : Globals :=
  mkGlobals false None None None None None.

(** The state: the emitter's descriptor set, saved snapshot, re-entrant lock
    (its depth) and event queue; the operating system's table of open file
    descriptors and the paths [os.open] fails on (with the errno); the module
    namespace; and what the outside world holds: the batches of kevents the
    kernel has ready for [kqueue.control] and the tree a fresh walk would
    capture. *)
Record World : Type := mkWorld {
  w_descriptors : KeventDescriptorSet;
  w_snapshot : DirectorySnapshot;
  w_lock : nat;
  w_event_queue : list FileSystemEvent;
  w_open_fds : gset Z;
  w_open_errno : gmap string Z;
  w_globals : Globals;
  w_kq_batches : list (list kevent);
  w_disk : DirectorySnapshot
}.

Definition set_descriptors (ds : KeventDescriptorSet) (w : World) : World :=
  mkWorld ds (w_snapshot w) (w_lock w) (w_event_queue w) (w_open_fds w)
          (w_open_errno w) (w_globals w) (w_kq_batches w) (w_disk w).
Definition set_snapshot (s : DirectorySnapshot) (w : World) : World :=
  mkWorld (w_descriptors w) s (w_lock w) (w_event_queue w) (w_open_fds w)
          (w_open_errno w) (w_globals w) (w_kq_batches w) (w_disk w).
Definition set_lock (n : nat) (w : World) : World :=
  mkWorld (w_descriptors w) (w_snapshot w) n (w_event_queue w) (w_open_fds w)
          (w_open_errno w) (w_globals w) (w_kq_batches w) (w_disk w).
Definition set_event_queue (q : list FileSystemEvent) (w : World) : World :=
  mkWorld (w_descriptors w) (w_snapshot w) (w_lock w) q (w_open_fds w)
          (w_open_errno w) (w_globals w) (w_kq_batches w) (w_disk w).
Definition set_open_fds (fds : gset Z) (w : World) : World :=
  mkWorld (w_descriptors w) (w_snapshot w) (w_lock w) (w_event_queue w) fds
          (w_open_errno w) (w_globals w) (w_kq_batches w) (w_disk w).
Definition set_ds_lock (b : bool) (ds : KeventDescriptorSet)
  : KeventDescriptorSet :=
  mkDescriptorSet (ds_descriptors ds) (ds_descriptor_for_path ds)
                  (ds_descriptor_for_fd ds) (ds_kevents ds) b.

(** ** The monad of method bodies *)

(** A call returns a value, raises, or never comes back because the thread
    waits on a lock nobody will release ([Blocked], with the state it is stuck
    in).  [OutOfFuel] is the model's own: a recursion bound was too small. *)
Inductive outcome (A : Type) : Type :=
  | Ok (a : A) (w : World)
  | Raise (e : exn) (w : World)
  | Blocked (w : World)
  | OutOfFuel.
Arguments Ok {A} a w.
Arguments Raise {A} e w.
Arguments Blocked {A} w.
Arguments OutOfFuel {A}.

Definition M (A : Type) : Type := World → outcome A.

#[global] Instance M_ret : MRet M := λ A a w, Ok a w.
#[global] Instance M_bind : MBind M := λ A B f m w,
  match m w with
  | Ok a w' => f a w'
  | Raise e w' => Raise e w'
  | Blocked w' => Blocked w'
  | OutOfFuel => OutOfFuel
  end.

Definition raise {A} (e : exn) : M A := λ w, Raise e w.
Definition get_world : M World := λ w, Ok w w.
Definition modify (f : World → World) : M unit := λ w, Ok tt (f w).

(** [try: body / except <classes caught by handler>: handler].  The handler
    runs in the state the exception left behind. *)
Definition try_except {A} (body : M A) (handler : exn → option (M A)) : M A :=
  λ w, match body w with
       | Raise e w' =>
           match handler e with
           | Some h => h w'
           | None => Raise e w'
           end
       | o => o
       end.

(** [with self._lock:] on the descriptor set's [threading.Lock], which is not
    re-entrant: acquiring it while it is held blocks, also for the thread that
    holds it.  The lock is released on the way out, normal or exceptional. *)
Definition ds_unlock (w : World) : World :=
  set_descriptors (set_ds_lock false (w_descriptors w)) w.
Definition ds_locked (w : World) : World :=
  set_descriptors (set_ds_lock true (w_descriptors w)) w.
Definition ds_acquire : M unit := λ w,
  if ds_lock (w_descriptors w) then Blocked w else Ok tt (ds_locked w).
Definition with_ds_lock {A} (body : M A) : M A := λ w,
  match ds_acquire w with
  | Ok _ w1 =>
      match body w1 with
      | Ok a w2 => Ok a (ds_unlock w2)
      | Raise e w2 => Raise e (ds_unlock w2)
      | Blocked w2 => Blocked w2
      | OutOfFuel => OutOfFuel
      end
  | Raise e w1 => Raise e w1
  | Blocked w1 => Blocked w1
  | OutOfFuel => OutOfFuel
  end.

(** [with self._lock:] on the emitter's [threading.RLock]: re-entrant, so the
    owning thread only counts its depth. *)
Definition with_rlock {A} (body : M A) : M A := λ w,
  match body (set_lock (S (w_lock w)) w) with
  | Ok a w2 => Ok a (set_lock (Nat.pred (w_lock w2)) w2)
  | Raise e w2 => Raise e (set_lock (Nat.pred (w_lock w2)) w2)
  | Blocked w2 => Blocked w2
  | OutOfFuel => OutOfFuel
  end.

(** ** The operating system *)

(** The lowest file descriptor that is not open, as [open(2)] allocates. *)
Fixpoint lowest_free (fuel : nat) (n : Z) (fds : gset Z) : Z :=
  match fuel with
  | O => n
  | S fuel' => if decide (n ∈ fds) then lowest_free fuel' (n + 1) fds else n
  end.

(** [os.open(path, WATCHDOG_OS_OPEN_FLAGS)]: an [OSError] with the errno the
    file system answers, or a new descriptor.  The flags only say that the
    handle is for notification and does not block; they have no effect on
    what is modelled. *)
Definition os_open (path : string) : M Z := λ w,
  match w_open_errno w !! path with
  | Some errno => Raise (OSError errno) w
  | None =>
      let fd := lowest_free (size (w_open_fds w)) 0 (w_open_fds w) in
      Ok fd (set_open_fds ({[fd]} ∪ w_open_fds w) w)
  end.

(** [os.close(fd)]: [EBADF] when [fd] is not open. *)
Definition os_close (fd : Z) : M unit := λ w,
  if decide (fd ∈ w_open_fds w)
  then Ok tt (set_open_fds (w_open_fds w ∖ {[fd]}) w)
  else Raise (OSError EBADF) w.

(** ** Flag tests *)

(** Python's truth value of an integer, and [a or b] on integers. *)
Definition truthy (z : Z) : bool := negb (z =? 0).
Definition py_or (a b : Z) : Z := if truthy a then a else b.

Definition is_deleted (kev : kevent) : Z :=
  Z.land (kev_fflags kev) KQ_NOTE_DELETE.

Definition is_modified (kev : kevent) : Z :=
  let fflags := kev_fflags kev in
  py_or (Z.land fflags KQ_NOTE_EXTEND) (Z.land fflags KQ_NOTE_WRITE).

Definition is_attrib_modified (kev : kevent) : Z :=
  Z.land (kev_fflags kev) KQ_NOTE_ATTRIB.

Definition is_renamed (kev : kevent) : Z :=
  Z.land (kev_fflags kev) KQ_NOTE_RENAME.

(** ** Snapshots and the event queue *)

(** Modelled from the spec: [DirectorySnapshot.stat_info], which fails with
    NotFound ([KeyError]) when the path is absent. *)
Definition stat_info (s : DirectorySnapshot) (path : string) : M DirectoryEntry :=
  match snap_stat s !! path with
  | Some e => mret e
  | None => raise KeyError
  end.

(** Modelled from the spec: [DirectorySnapshot.path_for_inode], which fails
    with NotFound ([KeyError]) when the inode is untracked. *)
Definition path_for_inode (s : DirectorySnapshot) (ino : Z) : M string :=
  match snap_inode s !! ino with
  | Some p => mret p
  | None => raise KeyError
  end.

(** Modelled from the spec: [DirectorySnapshot(path, recursive)], the walk of
    the tree as it is on disk at the time of the call. *)
Definition DirectorySnapshot_init (path : string) (recursive : bool)
  : M DirectorySnapshot := λ w, Ok (w_disk w) w.

(** Modelled from the spec: [EventEmitter.queue_event] of
    [watchdog.observers.api], which appends to the FIFO event queue. *)
Definition EventEmitter_queue_event (event : FileSystemEvent) : M unit :=
  modify (λ w, set_event_queue (w_event_queue w ++ [event]) w).

(** ** Reads of the module namespace *)

Definition lookup_kev : M unit := λ w,
  if g_kev (w_globals w) then Ok tt w else Raise (NameError "kev") w.

Definition lookup_global {A} (name : string) (field : Globals → option A)
  : M A := λ w,
  match field (w_globals w) with
  | Some v => Ok v w
  | None => Raise (NameError name) w
  end.

(** ** What Python refuses *)

(** [hash(kev)]: [select.kevent] has a comparison and no hash, so hashing one
    raises [TypeError] (unhashable type). *)
Definition kevent_hash (kev : kevent) : M Z := raise TypeError.

(** How the text is read at a [continue] that stands outside any loop
    (kqueue.py:455 and 494).  Python refuses to compile such a statement, so
    the module as it is cannot be imported at all; the two repairs that keep
    the rest of the text are to write [return] in its place, or to take the
    statement out. *)
Inductive continue_repair : Type :=
  | ContinueIsReturn
  | ContinueIsDeleted.

(** ** Sample states *)

(** A canonicalisation for the examples: a path that starts with a slash is
    taken as canonical, any other is put under the directory [/w]. *)
Definition sample_absolute_path (p : string) : string :=
  if String.prefix "/" p then p else "/w/" +:+ p.

Definition empty_snapshot : DirectorySnapshot := mkSnapshot ∅ ∅.

(** The file descriptors every process starts with. *)
Definition std_fds : gset Z := {[0; 1; 2]}.

(** The two repairs of a stray [continue]. *)
Definition both_repairs : list continue_repair :=
  [ContinueIsReturn; ContinueIsDeleted].

(** The module namespace with the name [kev] bound. *)
Definition kev_bound_globals : Globals :=
  mkGlobals true None None None None None.

(** An emitter that watches nothing yet. *)
Definition idle_world (g : Globals) (open_errno : gmap string Z) : World :=
  mkWorld KeventDescriptorSet_init empty_snapshot 0 [] std_fds open_errno g []
          empty_snapshot.

(** The descriptor of the tracked file [/w/a.txt], on handle 3. *)
Definition descriptor_a : KeventDescriptor :=
  mkDescriptor "/w/a.txt" false 3
    (select_kevent 3 WATCHDOG_KQ_FILTER WATCHDOG_KQ_EV_FLAGS WATCHDOG_KQ_FFLAGS).

Definition snapshot_a : DirectorySnapshot :=
  mkSnapshot {["/w/a.txt" := mkEntry false 10 0 0]} {[10 := "/w/a.txt"]}.

(** An emitter whose descriptor set holds the descriptor of [/w/a.txt] the
    way its methods expect to find one, in the module as it is loaded. *)
Definition tracked_world : World :=
  mkWorld
    (mkDescriptorSet {[("/w/a.txt", false) := descriptor_a]}
                     {["/w/a.txt" := descriptor_a]}
                     {[3 := descriptor_a]}
                     {[d_kevent descriptor_a]} false)
    snapshot_a 0 [] ({[3]} ∪ std_fds) ∅ module_globals [] snapshot_a.

(** The descriptor of the tracked directory [/w], on handle 3. *)
Definition descriptor_w : KeventDescriptor :=
  mkDescriptor "/w" true 3
    (select_kevent 3 WATCHDOG_KQ_FILTER WATCHDOG_KQ_EV_FLAGS WATCHDOG_KQ_FFLAGS).

(** An emitter that tracks the directory [/w], in which a file has just been
    created: the kernel has a write notification for the directory ready, and
    a walk would find the new file. *)
Definition resync_world : World :=
  mkWorld
    (mkDescriptorSet {[("/w", true) := descriptor_w]}
                     {["/w" := descriptor_w]}
                     {[3 := descriptor_w]}
                     {[d_kevent descriptor_w]} false)
    (mkSnapshot {["/w" := mkEntry true 20 0 0]} {[20 := "/w"]})
    0 [] ({[3]} ∪ std_fds) ∅ module_globals
    [[select_kevent 3 WATCHDOG_KQ_FILTER WATCHDOG_KQ_EV_FLAGS KQ_NOTE_WRITE]]
    (mkSnapshot {["/w" := mkEntry true 20 1 0;
                  "/w/new.txt" := mkEntry false 21 1 0]}
                {[20 := "/w"; 21 := "/w/new.txt"]}).

(** ** [watchdog.utils]: loading a class by its dotted path *)

(** The character of a dot. *)
Definition dot : Ascii.ascii :=
  Ascii.Ascii false true true true false true false false.

(** [s.split(sep)] for a separator of one character: the pieces between the
    separators, at least one piece, empty pieces included. *)
Fixpoint split (sep : Ascii.ascii) (s : string) : list string :=
  match s with
  | EmptyString => [EmptyString]
  | String c rest =>
      if decide (c = sep) then EmptyString :: split sep rest
      else match split sep rest with
           | [] => [String c EmptyString]
           | piece :: pieces => String c piece :: pieces
           end
  end.

(** [sep.join(pieces)]. *)
Fixpoint join (sep : Ascii.ascii) (pieces : list string) : string :=
  match pieces with
  | [] => EmptyString
  | [piece] => piece
  | piece :: rest => piece +:+ String sep (join sep rest)
  end.

(** A Python value as far as [load_class] can tell: [None] or some object. *)
Inductive pyvalue : Type :=
  | PyNone
  | PyObject (name : string).

(** A module: its attributes. *)
Definition pymodule : Type := gmap string pyvalue.

(** The exceptions of [load_class] and of an import, with their messages. *)
Inductive load_error : Type :=
  | LoadImportError (message : string)
  | LoadAttributeError (message : string)
  | LoadValueError (message : string)
  | LoadKeyError (key : string)
  | LoadOtherError (name : string).

(** [has_attribute]: [getattr(ob, attribute, None) is not None]. *)
Definition has_attribute (ob : pymodule) (attribute : string) : bool :=
  match default PyNone (ob !! attribute) with
  | PyNone => false
  | PyObject _ => true
  end.

(** What the interpreter answers to [__import__(name)]: the exception it
    raises, or the table [sys.modules] after the import. *)
Definition importer : Type := string → load_error + gmap string pymodule.

(** [load_module]: an [ImportError] of the import is raised anew with the
    module's name, anything else raised is passed on; the module is then read
    in [sys.modules].  The result comes with the list of the imports asked
    for. *)
Definition load_module (__import__ : importer) (module_name : string)
    : list string * (load_error + pymodule) :=
  ([module_name],
   match __import__ module_name with
   | inl (LoadImportError _) =>
       inl (LoadImportError ("No module named " +:+ module_name))
   | inl e => inl e
   | inr sys_modules =>
       match sys_modules !! module_name with
       | Some module => inr module
       | None => inl (LoadKeyError module_name)
       end
   end).

(** [load_class]. *)
Definition load_class (__import__ : importer) (dotted_path : string)
    : list string * (load_error + pyvalue) :=
  let dotted_path_split := split dot dotted_path in
  if decide (1 < length dotted_path_split)%nat then
    let klass_name := List.last dotted_path_split EmptyString in
    let module_name := join dot (removelast dotted_path_split) in
    match load_module __import__ module_name with
    | (imports, inl e) => (imports, inl e)
    | (imports, inr module) =>
        if has_attribute module klass_name
        then (imports, inr (default PyNone (module !! klass_name)))
        else (imports,
              inl (LoadAttributeError
                     ("Module " +:+ module_name
                      +:+ " does not have class attribute " +:+ klass_name)))
    end
  else ([],
        inl (LoadValueError
               ("Dotted module path " +:+ dotted_path
                +:+ " must contain a module name and a classname"))).

(** A string without a dot. *)
Fixpoint dot_free (s : string) : bool :=
  match s with
  | EmptyString => true
  | String c rest => negb (bool_decide (c = dot)) && dot_free rest
  end.

(** ** [tests/utils.py]: the attributes of an object *)

(** An object as [list_attributes] reads it: the names [dir(o)] lists, in
    their order, and for every name what [getattr(o, name)] does: it raises
    (the exception's name is kept), or it gives a value, of which only
    [callable(value)] matters. *)
Record pyobject : Type := mkObject {
  dir : list string;
  getattr : string → string + bool
}.

(** [attribute.startswith(prefix)]. *)
Definition startswith (attribute prefix : string) : bool :=
  String.prefix prefix attribute.

(** The two [isattribute] functions of [list_attributes].  In the public one
    [or] does not evaluate [getattr] for a name that starts with an
    underscore. *)
Definition isattribute (only_public : bool) (o : pyobject)
    (attribute : string) : string + bool :=
  if only_public then
    if startswith attribute "_" then inr false
    else match getattr o attribute with
         | inl e => inl e
         | inr callable => inr (negb callable)
         end
  else
    match getattr o attribute with
    | inl e => inl e
    | inr callable => inr (negb callable)
    end.

(** [[attribute for attribute in names if test(attribute)]]: the names
    are tested in order, and the first exception ends the comprehension. *)
Fixpoint comprehension (test : string → string + bool) (names : list string)
  : string + list string :=
  match names with
  | [] => inr []
  | attribute :: rest =>
      match test attribute with
      | inl e => inl e
      | inr keep =>
          match comprehension test rest with
          | inl e => inl e
          | inr kept => inr (if (keep : bool) then attribute :: kept else kept)
          end
      end
  end.

(** [list_attributes]. *)
Definition list_attributes (o : pyobject) (only_public : bool)
  : string + list string :=
  comprehension (isattribute only_public o) (dir o).

Section Kqueue.

(** [watchdog.utils.absolute_path] is not part of the sources at hand; the
    spec takes it as a pure function to the canonical absolute path.  What is
    canonical is not changed by a second application. *)
Variable absolute_path : string → string.
Hypothesis absolute_path_idem :
  ∀ p, absolute_path (absolute_path p) = absolute_path p.

(** The repair of the two stray [continue] statements under which the module
    is read. *)
Variable stray_continue : continue_repair.

(** ** [KeventDescriptor] *)

(** [KeventDescriptor.__init__].  The second statement reads the name [kev]. *)
Definition KeventDescriptor_init (path : string) (is_directory : bool)
  : M KeventDescriptor :=
  let _path := absolute_path path in
  _ ← lookup_kev;
  _fd ← os_open path;
  mret (mkDescriptor _path is_directory _fd
          (select_kevent _fd WATCHDOG_KQ_FILTER WATCHDOG_KQ_EV_FLAGS
                         WATCHDOG_KQ_FFLAGS)).

(** [KeventDescriptor.close]: an [OSError] of [os.close] is swallowed. *)
Definition close (d : KeventDescriptor) : M unit :=
  try_except (os_close (d_fd d))
    (λ e, match e with OSError _ => Some (mret tt) | _ => None end).

(** ** [KeventDescriptorSet] *)

Definition modify_ds (f : KeventDescriptorSet → KeventDescriptorSet) : M unit :=
  modify (λ w, set_descriptors (f (w_descriptors w)) w).

(** The [kevents] property. *)
Definition kevents : M (list kevent) :=
  with_ds_lock (λ w, Ok (elements (ds_kevents (w_descriptors w))) w).

(** [get_for_fd]. *)
Definition get_for_fd (fd : Z) : M KeventDescriptor :=
  with_ds_lock (λ w,
    match ds_descriptor_for_fd (w_descriptors w) !! fd with
    | Some d => Ok d w
    | None => Raise KeyError w
    end).

(** [__getitem__]. *)
Definition __getitem__ (path : string) : M KeventDescriptor :=
  with_ds_lock (
    let path := absolute_path path in
    λ w, match ds_descriptor_for_path (w_descriptors w) !! path with
         | Some d => Ok d w
         | None => Raise KeyError w
         end).

(** [_has_path]. *)
Definition _has_path (path : string) : M bool := λ w,
  Ok (bool_decide (is_Some (ds_descriptor_for_path (w_descriptors w) !! path))) w.

(** [__contains__]. *)
Definition __contains__ (path : string) : M bool :=
  with_ds_lock (let path := absolute_path path in _has_path path).

(** [self._kevents.add(kev)] and [self._kevents.remove(kev)]: a set hashes
    the element first, which a kevent does not allow; what would follow the
    hashing is never reached. *)
Definition _kevents_add (kev : kevent) : M unit :=
  _ ← kevent_hash kev;
  modify_ds (λ ds, mkDescriptorSet
    (ds_descriptors ds) (ds_descriptor_for_path ds) (ds_descriptor_for_fd ds)
    ({[kev]} ∪ ds_kevents ds) (ds_lock ds)).

Definition _kevents_remove (kev : kevent) : M unit :=
  _ ← kevent_hash kev;
  ((λ w, if decide (kev ∈ ds_kevents (w_descriptors w))
         then modify_ds (λ ds, mkDescriptorSet
                (ds_descriptors ds) (ds_descriptor_for_path ds)
                (ds_descriptor_for_fd ds)
                (ds_kevents ds ∖ {[kev]}) (ds_lock ds)) w
         else Raise KeyError w) : M unit).

(** [self._descriptors.add(descriptor)]: adding to a Python set an element
    equal to one it holds leaves the set as it is. *)
Definition _descriptors_add (descriptor : KeventDescriptor)
    (ds : KeventDescriptorSet) : KeventDescriptorSet :=
  mkDescriptorSet
    (match ds_descriptors ds !! _key descriptor with
     | Some _ => ds_descriptors ds
     | None => <[_key descriptor := descriptor]> (ds_descriptors ds)
     end)
    (ds_descriptor_for_path ds) (ds_descriptor_for_fd ds)
    (ds_kevents ds) (ds_lock ds).

(** [_add_descriptor]: four statements, each after the ones before it took
    effect. *)
Definition _add_descriptor (descriptor : KeventDescriptor) : M unit :=
  _ ← modify_ds (_descriptors_add descriptor);
  _ ← _kevents_add (d_kevent descriptor);
  _ ← modify_ds (λ ds, mkDescriptorSet
         (ds_descriptors ds)
         (<[d_path descriptor := descriptor]> (ds_descriptor_for_path ds))
         (ds_descriptor_for_fd ds) (ds_kevents ds) (ds_lock ds));
  modify_ds (λ ds, mkDescriptorSet
    (ds_descriptors ds) (ds_descriptor_for_path ds)
    (<[d_fd descriptor := descriptor]> (ds_descriptor_for_fd ds))
    (ds_kevents ds) (ds_lock ds)).

(** [_remove_descriptor]: [set.remove] and [del d[k]] raise [KeyError] on a
    missing element, each after the statements before it took effect. *)
Definition _remove_descriptor (descriptor : KeventDescriptor) : M unit :=
  _ ← (λ w, match ds_descriptors (w_descriptors w) !! _key descriptor with
            | Some _ =>
                modify_ds (λ ds, mkDescriptorSet
                  (delete (_key descriptor) (ds_descriptors ds))
                  (ds_descriptor_for_path ds) (ds_descriptor_for_fd ds)
                  (ds_kevents ds) (ds_lock ds)) w
            | None => Raise KeyError w
            end);
  _ ← (λ w, match ds_descriptor_for_fd (w_descriptors w) !! d_fd descriptor with
            | Some _ =>
                modify_ds (λ ds, mkDescriptorSet
                  (ds_descriptors ds) (ds_descriptor_for_path ds)
                  (delete (d_fd descriptor) (ds_descriptor_for_fd ds))
                  (ds_kevents ds) (ds_lock ds)) w
            | None => Raise KeyError w
            end);
  _ ← (λ w, match ds_descriptor_for_path (w_descriptors w) !! d_path descriptor with
            | Some _ =>
                modify_ds (λ ds, mkDescriptorSet
                  (ds_descriptors ds)
                  (delete (d_path descriptor) (ds_descriptor_for_path ds))
                  (ds_descriptor_for_fd ds)
                  (ds_kevents ds) (ds_lock ds)) w
            | None => Raise KeyError w
            end);
  _ ← _kevents_remove (d_kevent descriptor);
  close descriptor.

(** [add]. *)
Definition add (path : string) (is_directory : bool) : M unit :=
  with_ds_lock (
    let path := absolute_path path in
    has ← _has_path path;
    if negb has then
      descriptor ← KeventDescriptor_init path is_directory;
      _add_descriptor descriptor
    else mret tt).

(** [remove].  [self[path]] is a call of [__getitem__], which takes the lock
    that [remove] holds at that point. *)
Definition remove (path : string) : M unit :=
  with_ds_lock (
    let path := absolute_path path in
    has ← _has_path path;
    if (has : bool) then
      descriptor ← __getitem__ path;
      _remove_descriptor descriptor
    else mret tt).

(** [clear].  The descriptors are closed in the order the set iterates. *)
Definition clear : M unit :=
  with_ds_lock (
    w ← get_world;
    _ ← foldr (λ d (rest : M unit), _ ← close d; rest) (mret tt)
              (map snd (map_to_list (ds_descriptors (w_descriptors w))));
    modify_ds (λ ds, mkDescriptorSet ∅ ∅ ∅ ∅ (ds_lock ds))).

(** ** [KqueueEmitter] *)

(** [_unregister]. *)
Definition _unregister (path : string) : M unit := remove path.

(** [event.dest_path]: only a moved event has the attribute. *)
Definition event_dest_path (event : FileSystemEvent) : M string :=
  match dest_path event with
  | Some d => mret d
  | None => raise AttributeError
  end.

(** [_register], with the [queue_event] it calls back as a parameter: the two
    methods call each other. *)
Definition _register_with (queue_event : FileSystemEvent → M unit)
    (path : string) (is_directory : bool) : M unit :=
  try_except (add path is_directory)
    (λ e, match e with
          | OSError errno =>
              Some (if decide (errno = ENOENT) then
                      let path := absolute_path path in
                      if is_directory then
                        _ ← queue_event (DirCreatedEvent path);
                        queue_event (DirDeletedEvent path)
                      else
                        _ ← queue_event (FileCreatedEvent path);
                        queue_event (FileDeletedEvent path)
                    else raise e)
          | _ => None
          end).

(** [queue_event].  [fuel] bounds the depth of the mutual recursion with
    [_register]; see [queue_event_fuel_stable] for why two levels are all
    there are. *)
Fixpoint queue_event_fuel (fuel : nat) (event : FileSystemEvent) : M unit :=
  match fuel with
  | O => λ _, OutOfFuel
  | S fuel' =>
      with_rlock (
        _ ← match event_type event with
            | EVENT_TYPE_MOVED =>
                _ ← _unregister (src_path event);
                dest ← event_dest_path event;
                _register_with (queue_event_fuel fuel') dest (is_directory event)
            | EVENT_TYPE_DELETED => _unregister (src_path event)
            | _ => mret tt
            end;
        EventEmitter_queue_event event)
  end.

Definition queue_event : FileSystemEvent → M unit := queue_event_fuel 2.

Definition _register : string → bool → M unit := _register_with queue_event.

(** [_queue_from_dirs_renamed] and [_queue_from_dirs_modified]: the bodies are
    [pass].  Python checks no argument types, hence the polymorphism. *)
Definition _queue_from_dirs_renamed {A B C}
    (dirs_renamed : A) (ref_snapshot : B) (new_snapshot : C) : M unit :=
  mret tt.

Definition _queue_from_dirs_modified {A B C}
    (dirs_modified : A) (ref_snapshot : B) (new_snapshot : C) : M unit :=
  mret tt.

(** [_queue_file_renamed].  The first handler ends in a stray [continue].
    Read as [return], the method ends there.  With the statement taken out,
    control goes on to the second [try], whose first expression reads the
    local [ref_stat_info], which the failed assignment never bound. *)
Definition _queue_file_renamed (src_path : string)
    (ref_snapshot new_snapshot : DirectorySnapshot) : M unit :=
  r ← try_except (ref_stat_info ← stat_info ref_snapshot src_path;
                  mret (Some ref_stat_info))
        (λ e, match e with
              | KeyError =>
                  Some (_ ← queue_event (FileCreatedEvent src_path);
                        _ ← queue_event (FileDeletedEvent src_path);
                        mret None)
              | _ => None
              end);
  match r with
  | None =>
      match stray_continue with
      | ContinueIsReturn => mret tt
      | ContinueIsDeleted => raise (UnboundLocalError "ref_stat_info")
      end
  | Some ref_stat_info =>
      try_except
        (dest_path ← path_for_inode new_snapshot (st_ino ref_stat_info);
         queue_event (FileMovedEvent src_path dest_path))
        (λ e, match e with
              | KeyError => Some (queue_event (FileDeletedEvent src_path))
              | _ => None
              end)
  end.

(** The three local sets of
    [_queue_events_except_renames_and_dir_modifications]. *)
Record Deferred : Type := mkDeferred {
  files_renamed : gset string;
  dirs_renamed : gset string;
  dirs_modified : gset string
}.

(** The body of the [for kev in event_list] loop. *)
Definition handle_kev (kev : kevent) (acc : Deferred) : M Deferred :=
  descriptor ← get_for_fd (kev_ident kev);
  let src_path := d_path descriptor in
  if truthy (is_deleted kev) then
    _ ← (if d_is_directory descriptor
         then queue_event (DirDeletedEvent src_path)
         else queue_event (FileDeletedEvent src_path));
    mret acc
  else if truthy (is_attrib_modified kev) then
    _ ← (if d_is_directory descriptor
         then queue_event (DirModifiedEvent src_path)
         else queue_event (FileModifiedEvent src_path));
    mret acc
  else if truthy (is_modified kev) then
    if d_is_directory descriptor
    then mret (mkDeferred (files_renamed acc) (dirs_renamed acc)
                          ({[src_path]} ∪ dirs_modified acc))
    else _ ← queue_event (FileModifiedEvent src_path); mret acc
  else if truthy (is_renamed kev) then
    if d_is_directory descriptor
    then mret (mkDeferred (files_renamed acc)
                          ({[src_path]} ∪ dirs_renamed acc)
                          (dirs_modified acc))
    else
      ref_snapshot ← lookup_global "ref_snapshot" g_ref_snapshot;
      new_snapshot ← lookup_global "new_snapshot" g_new_snapshot;
      _ ← _queue_file_renamed src_path ref_snapshot new_snapshot;
      mret acc
  else mret acc.

Fixpoint for_each_kev (event_list : list kevent) (acc : Deferred) : M Deferred :=
  match event_list with
  | [] => mret acc
  | kev :: rest => acc' ← handle_kev kev acc; for_each_kev rest acc'
  end.

(** [_queue_events_except_renames_and_dir_modifications]. *)
Definition _queue_events_except_renames_and_dir_modifications
    (event_list : list kevent) : M Deferred :=
  for_each_kev event_list (mkDeferred ∅ ∅ ∅).

(** [_read_events]: [kqueue.control] is called with [max_events] and
    [timeout] as keyword arguments, which the built-in method does not take:
    the call raises [TypeError], and the batches the kernel has ready
    ([w_kq_batches]) are not touched. *)
Definition _read_events (kevent_list : list kevent) (timeout : Z)
  : M (list kevent) := raise TypeError.

(** Calling a list ([self._descriptors.kevents] is a property, and its value
    is then called): a list is not callable. *)
Definition call_list {A B} (l : list A) : M B := raise TypeError.

(** Unpacking the three sets into two names. *)
Definition unpack_two (t : Deferred) : M (gset string * gset string) :=
  raise ValueError.

(** One turn of the [while self._lock:] loop of [queue_events]. *)
Definition queue_events_iteration (timeout : Z) : M unit :=
  kevent_list ← (l ← kevents; call_list l);
  event_list ← _read_events kevent_list timeout;
  triple ← _queue_events_except_renames_and_dir_modifications event_list;
  two ← unpack_two triple;
  let dirs_renamed := two.1 in
  let dir_modified := two.2 in
  watch ← lookup_global "watch" g_watch;
  new_snapshot ← DirectorySnapshot_init (watch_path watch)
                                         (watch_is_recursive watch);
  w ← get_world;
  let ref_snapshot := w_snapshot w in
  _ ← modify (set_snapshot new_snapshot);
  cond ← (if bool_decide (dirs_renamed ≠ ∅) then mret true
          else dm ← lookup_global "dirs_modified" g_dirs_modified;
               mret (bool_decide (dm ≠ ∅)));
  if (cond : bool) then
    _ ← _queue_from_dirs_renamed ref_snapshot new_snapshot dirs_renamed;
    dm ← lookup_global "dirs_modified" g_dirs_modified;
    _queue_from_dirs_modified ref_snapshot new_snapshot dm
  else mret tt.

(** [while self._lock:]: the lock object is always true. *)
Fixpoint while_true (fuel : nat) (body : M unit) : M unit :=
  match fuel with
  | O => λ _, OutOfFuel
  | S fuel' => _ ← body; while_true fuel' body
  end.

(** [e.errno]. *)
Definition exn_errno (e : exn) : M Z :=
  match e with
  | OSError errno => mret errno
  | _ => raise AttributeError
  end.

(** [queue_events]: the loop inside [try], and the handler
    [except OSerror, e], whose class name is looked up when an exception
    arrives.  The handler's [continue] stands outside the loop, which the
    [try] encloses; read as [return] or taken out, it is where the handler
    and with it the method ends. *)
Definition queue_events (fuel : nat) (timeout : Z) : M unit := λ w,
  match while_true fuel (queue_events_iteration timeout) w with
  | Raise e w' =>
      (cls ← lookup_global "OSerror" g_OSerror;
       if (cls e : bool) then
         errno ← exn_errno e;
         if decide (errno = EBADF) then
           match stray_continue with
           | ContinueIsReturn => mret tt
           | ContinueIsDeleted => mret tt
           end
         else raise e
       else raise e) w'
  | o => o
  end.

(** ** Sequences of calls on the descriptor set *)

Inductive ds_call : Type :=
  | CallAdd (path : string) (is_directory : bool)
  | CallRemove (path : string).

Definition run_call (c : ds_call) : M unit :=
  match c with
  | CallAdd path is_directory => add path is_directory
  | CallRemove path => remove path
  end.

(** The state a call leaves behind, however it ends.  A blocked call leaves the
    lock held, and every later call then blocks on it in turn. *)
Definition state_after {A} (o : outcome A) (w : World) : World :=
  match o with
  | Ok _ w' | Raise _ w' | Blocked w' => w'
  | OutOfFuel => w
  end.




(** Appending to the event queue. *)
Definition enqueue (events : list FileSystemEvent) (w : World) : World :=
  set_event_queue (w_event_queue w ++ events) w.

(** ** The rest of the module *)

(** The [paths] property: the keys of the path index. *)
Definition paths : M (list string) :=
  with_ds_lock (λ w,
    Ok (elements (dom (ds_descriptor_for_path (w_descriptors w)))) w).

(** The public methods of [KeventDescriptorSet], each as a call whose result
    is dropped. *)
Inductive ds_method : Type :=
  | MethodAdd (path : string) (is_directory : bool)
  | MethodRemove (path : string)
  | MethodGetForFd (fd : Z)
  | MethodGetItem (path : string)
  | MethodContains (path : string)
  | MethodClear
  | MethodKevents
  | MethodPaths.

Definition call_method (m : ds_method) : M unit :=
  match m with
  | MethodAdd path is_directory => add path is_directory
  | MethodRemove path => remove path
  | MethodGetForFd fd => _ ← get_for_fd fd; mret tt
  | MethodGetItem path => _ ← __getitem__ path; mret tt
  | MethodContains path => _ ← __contains__ path; mret tt
  | MethodClear => clear
  | MethodKevents => _ ← kevents; mret tt
  | MethodPaths => _ ← paths; mret tt
  end.

Fixpoint call_methods (ms : list ds_method) (w : World) : World :=
  match ms with
  | [] => w
  | m :: rest => call_methods rest (state_after (call_method m w) w)
  end.

(** The two indices and the two sets of a descriptor set tell the same
    story, and every handle in it is open. *)
Record consistent (w : World) : Prop := mkConsistent {
  path_entries : ∀ p d,
    ds_descriptor_for_path (w_descriptors w) !! p = Some d →
    d_path d = p ∧
    ds_descriptor_for_fd (w_descriptors w) !! d_fd d = Some d ∧
    ds_descriptors (w_descriptors w) !! _key d = Some d ∧
    d_kevent d ∈ ds_kevents (w_descriptors w);
  fd_entries : ∀ fd d,
    ds_descriptor_for_fd (w_descriptors w) !! fd = Some d →
    d_fd d = fd ∧
    ds_descriptor_for_path (w_descriptors w) !! d_path d = Some d ∧
    fd ∈ w_open_fds w;
  set_entries : ∀ k d,
    ds_descriptors (w_descriptors w) !! k = Some d →
    _key d = k ∧
    ds_descriptor_for_path (w_descriptors w) !! d_path d = Some d;
  kevent_entries : ∀ kev,
    kev ∈ ds_kevents (w_descriptors w) →
    ∃ d, ds_descriptor_for_fd (w_descriptors w) !! kev_ident kev = Some d ∧
         d_kevent d = kev
}.

(** The [walker_callback] of [KqueueEmitter.__init__], which the snapshot's
    walk calls on every entry it finds. *)
Definition walker_callback (path : string) (stat_info : DirectoryEntry)
  : M unit :=
  _register path (entry_is_directory stat_info).

(** The calls of [walker_callback] that a walk over [entries] makes, in the
    order of the walk. *)
Fixpoint walk_with_callback (entries : list (string * DirectoryEntry))
  : M unit :=
  match entries with
  | [] => mret tt
  | (path, stat_info) :: rest =>
      _ ← walker_callback path stat_info; walk_with_callback rest
  end.

(** [self._kq.close()]: the control descriptor of the kqueue is closed;
    closing a kqueue twice is allowed. *)
Definition kqueue_close (kq : Z) : M unit :=
  modify (λ w, set_open_fds (w_open_fds w ∖ {[kq]}) w).

(** [on_thread_exit], for an emitter whose [_kq] is on descriptor [kq]. *)
Definition on_thread_exit (kq : Z) : M unit :=
  with_rlock (_ ← clear; kqueue_close kq).

(** The handles of the descriptors in the set proper, which are those that
    [clear] closes. *)
Definition set_handles (ds : KeventDescriptorSet) : gset Z :=
  list_to_set (d_fd <$> (map_to_list (ds_descriptors ds)).*2).

(** A kevent that the loop body answers with a Modified event on the spot:
    its handle has a descriptor, the delete flag is not set, and either the
    attribute flag is set or it is a write to a file. *)
Definition answered_at_once (w : World) (kev : kevent)
    (event : FileSystemEvent) : Prop :=
  ∃ d, ds_descriptor_for_fd (w_descriptors w) !! kev_ident kev = Some d ∧
       is_deleted kev = 0 ∧
       (is_attrib_modified kev ≠ 0 ∨
        (is_modified kev ≠ 0 ∧ d_is_directory d = false)) ∧
       event = mkEvent EVENT_TYPE_MODIFIED (d_is_directory d) (d_path d) None.

(** A kevent that the loop body defers: its handle has the descriptor of a
    directory, and of the flags only write, extend or rename are set. *)
Definition deferred_directory (w : World) (kev : kevent) (path : string)
    (renamed : bool) : Prop :=
  ∃ d, ds_descriptor_for_fd (w_descriptors w) !! kev_ident kev = Some d ∧
       d_is_directory d = true ∧ d_path d = path ∧
       is_deleted kev = 0 ∧ is_attrib_modified kev = 0 ∧
       if renamed then is_modified kev = 0 ∧ is_renamed kev ≠ 0
       else is_modified kev ≠ 0.

(** The state an [add] leaves behind that got as far as [_add_descriptor]:
    the handle it opened stays open, and the descriptor it built sits in the
    set proper (unless an equal one was there) and in neither index. *)
Definition after_failed_add (path : string) (is_directory : bool) (w : World)
  : World :=
  let fd := lowest_free (size (w_open_fds w)) 0 (w_open_fds w) in
  let descriptor :=
    mkDescriptor (absolute_path (absolute_path path)) is_directory fd
      (select_kevent fd WATCHDOG_KQ_FILTER WATCHDOG_KQ_EV_FLAGS
                     WATCHDOG_KQ_FFLAGS) in
  set_descriptors (_descriptors_add descriptor (w_descriptors w))
                  (set_open_fds ({[fd]} ∪ w_open_fds w) w).

(** A descriptor set in which nothing is registered: no path and no handle
    has a descriptor, and no kevent is kept for [kqueue.control]. *)
Definition nothing_registered (ds : KeventDescriptorSet) : Prop :=
  ds_descriptor_for_path ds = ∅ ∧ ds_descriptor_for_fd ds = ∅ ∧
  ds_kevents ds = ∅.

(** * Facts *)

Ltac run :=
  unfold mbind, M_bind, mret, M_ret, raise, modify, modify_ds, get_world,
         try_except, with_ds_lock, ds_acquire, with_rlock, _has_path in *;
  simpl in *.

Lemma ds_unlock_locked w :
  ds_lock (w_descriptors w) = false → ds_unlock (ds_locked w) = w.
Proof.
  destruct w as [[] ? ? ? ? ? ? ? ?]; simpl; intros ->; reflexivity.
Qed.

Lemma remove_absent path w :
  ds_lock (w_descriptors w) = false →
  ds_descriptor_for_path (w_descriptors w) !! absolute_path path = None →
  remove path w = Ok tt w.
Proof.
  intros Hl Hp. unfold remove. run. rewrite Hl. simpl.
  rewrite Hp. simpl. by rewrite ds_unlock_locked.
Qed.

Lemma remove_registered_blocks path w d :
  ds_lock (w_descriptors w) = false →
  ds_descriptor_for_path (w_descriptors w) !! absolute_path path = Some d →
  remove path w = Blocked (ds_locked w).
Proof.
  intros Hl Hp. unfold remove, __getitem__. run. rewrite Hl. simpl.
  rewrite Hp. simpl. reflexivity.
Qed.

Lemma remove_locked_blocks path w :
  ds_lock (w_descriptors w) = true → remove path w = Blocked w.
Proof. intros Hl. unfold remove. run. by rewrite Hl. Qed.

Lemma remove_outcome path w :
  remove path w = Ok tt w ∨ ∃ w', remove path w = Blocked w'.
Proof.
  destruct (ds_lock (w_descriptors w)) eqn:Hl.
  - right. eexists. by apply remove_locked_blocks.
  - destruct (ds_descriptor_for_path (w_descriptors w) !! absolute_path path) eqn:Hp.
    + right. eexists. by eapply remove_registered_blocks.
    + left. by apply remove_absent.
Qed.

(** ** [add] *)

Lemma add_registered path is_directory w d :
  ds_lock (w_descriptors w) = false →
  ds_descriptor_for_path (w_descriptors w) !! absolute_path path = Some d →
  add path is_directory w = Ok tt w.
Proof.
  intros Hl Hp. unfold add. run. rewrite Hl. simpl.
  rewrite Hp. simpl. by rewrite ds_unlock_locked.
Qed.

Lemma add_locked_blocks path is_directory w :
  ds_lock (w_descriptors w) = true → add path is_directory w = Blocked w.
Proof. intros Hl. unfold add. run. by rewrite Hl. Qed.

(** [_add_descriptor] never gets past its second statement. *)
Lemma _add_descriptor_raises d w :
  _add_descriptor d w
  = Raise TypeError (set_descriptors (_descriptors_add d (w_descriptors w)) w).
Proof. reflexivity. Qed.

(** [add] on a path without descriptor always raises: the [NameError] of the
    constructor where [kev] is unbound; else the [OSError] of [os.open]; else
    the [TypeError] of [_add_descriptor], with the handle left open. *)
Lemma add_unregistered path is_directory w :
  ds_lock (w_descriptors w) = false →
  ds_descriptor_for_path (w_descriptors w) !! absolute_path path = None →
  add path is_directory w
  = if g_kev (w_globals w) then
      match w_open_errno w !! absolute_path path with
      | Some errno => Raise (OSError errno) w
      | None => Raise TypeError (after_failed_add path is_directory w)
      end
    else Raise (NameError "kev") w.
Proof.
  intros Hl Hp.
  unfold add, KeventDescriptor_init, lookup_kev, os_open. run.
  rewrite Hl. simpl. rewrite Hp. simpl.
  destruct (g_kev (w_globals w)); simpl; [|by rewrite ds_unlock_locked].
  destruct (w_open_errno w !! absolute_path path); simpl;
    [by rewrite ds_unlock_locked|].
  f_equal. unfold after_failed_add, _descriptors_add.
  destruct w as [[] ? ? ? ? ? ? ? ?]; simpl in *. by subst.
Qed.

(** What [add] leaves alone, however it ends. *)
Lemma add_frame path is_directory w :
  match add path is_directory w with
  | Ok _ w' =>
      w' = w ∧ ds_lock (w_descriptors w) = false ∧
      is_Some (ds_descriptor_for_path (w_descriptors w) !! absolute_path path)
  | Raise ex w' =>
      ds_lock (w_descriptors w) = false ∧
      ds_descriptor_for_path (w_descriptors w) !! absolute_path path = None ∧
      ds_descriptor_for_path (w_descriptors w')
      = ds_descriptor_for_path (w_descriptors w) ∧
      ds_descriptor_for_fd (w_descriptors w')
      = ds_descriptor_for_fd (w_descriptors w) ∧
      ds_kevents (w_descriptors w') = ds_kevents (w_descriptors w) ∧
      ds_lock (w_descriptors w') = false ∧
      w_event_queue w' = w_event_queue w ∧
      w_lock w' = w_lock w ∧
      w_globals w' = w_globals w ∧
      w_open_errno w' = w_open_errno w ∧
      ((ex = TypeError ∧ g_kev (w_globals w) = true ∧
        w_open_errno w !! absolute_path path = None ∧
        w' = after_failed_add path is_directory w) ∨
       (w' = w ∧
        ((ex = NameError "kev" ∧ g_kev (w_globals w) = false) ∨
         ∃ errno, ex = OSError errno ∧ g_kev (w_globals w) = true ∧
                  w_open_errno w !! absolute_path path = Some errno)))
  | Blocked w' => w' = w ∧ ds_lock (w_descriptors w) = true
  | OutOfFuel => False
  end.
Proof.
  destruct (ds_lock (w_descriptors w)) eqn:Hl.
  { by rewrite add_locked_blocks. }
  destruct (ds_descriptor_for_path (w_descriptors w) !! absolute_path path)
    as [d|] eqn:Hp.
  { erewrite add_registered by done. eauto. }
  rewrite add_unregistered by done.
  destruct (g_kev (w_globals w)) eqn:Hk; [|naive_solver].
  destruct (w_open_errno w !! absolute_path path) as [errno|] eqn:He;
    [naive_solver|].
  repeat split; try done. left. done.
Qed.

(** The handle [os.open] hands out is a new one. *)
Lemma lowest_free_fresh fuel (n : Z) (fds : gset Z) :
  (size (filter (λ x : Z, (n ≤ x)%Z) fds) ≤ fuel)%nat →
  lowest_free fuel n fds ∉ fds.
Proof.
  revert n. induction fuel as [|fuel IH]; intros n Hsize; simpl.
  - intros Hin.
    assert (size (filter (λ x : Z, (n ≤ x)%Z) fds) = 0%nat) as H0 by lia.
    apply size_empty_inv in H0.
    apply (not_elem_of_empty (C:=gset Z) n), H0, elem_of_filter.
    split; [lia|done].
  - case_decide as Hin; [|done].
    apply IH.
    assert (filter (λ x : Z, (n + 1 ≤ x)%Z) fds ⊂ filter (λ x : Z, (n ≤ x)%Z) fds) as Hsub.
    { split.
      - intros x. rewrite !elem_of_filter. intros [? ?]. split; [lia|done].
      - intros Hs. specialize (Hs n). rewrite !elem_of_filter in Hs.
        destruct Hs as [? _]; [|lia]. split; [lia|done]. }
    apply subset_size in Hsub. lia.
Qed.

Lemma new_handle_fresh (fds : gset Z) : lowest_free (size fds) 0 fds ∉ fds.
Proof.
  apply lowest_free_fresh, subseteq_size.
  intros x. rewrite elem_of_filter. tauto.
Qed.

(** ** The descriptor set under [add] and [remove] *)

Lemma nothing_registered_init : nothing_registered KeventDescriptorSet_init.
Proof. done. Qed.

Lemma run_call_registers_nothing c w :
  nothing_registered (w_descriptors w) →
  ds_lock (w_descriptors w) = false →
  nothing_registered (w_descriptors (state_after (run_call c w) w)) ∧
  ds_lock (w_descriptors (state_after (run_call c w) w)) = false ∧
  (g_kev (w_globals w) = false → state_after (run_call c w) w = w).
Proof.
  intros (Hp & Hfd & Hkev) Hl.
  destruct c as [path is_directory|path]; simpl.
  - pose proof (add_frame path is_directory w) as Hadd.
    destruct (add path is_directory w) as [[] w'|ex w'|w'|]; simpl.
    + destruct Hadd as (-> & _). done.
    + destruct Hadd as (_ & _ & Hp' & Hfd' & Hkev' & Hl' & _ & _ & _ & _ & Hex).
      split; [unfold nothing_registered; by rewrite Hp', Hfd', Hkev'|].
      split; [done|]. intros Hk.
      destruct Hex as [(_ & Hk' & _)|[-> _]]; [congruence|done].
    + destruct Hadd as (-> & _). done.
    + done.
  - rewrite remove_absent; [done|done|]. by rewrite Hp, lookup_empty.
Qed.



(** ** [get_for_fd] and [_remove_descriptor] *)

Lemma get_for_fd_known fd w d :
  ds_lock (w_descriptors w) = false →
  ds_descriptor_for_fd (w_descriptors w) !! fd = Some d →
  get_for_fd fd w = Ok d w.
Proof.
  intros Hl Hfd. unfold get_for_fd. run. rewrite Hl. simpl. rewrite Hfd.
  by rewrite ds_unlock_locked.
Qed.

Lemma get_for_fd_unknown fd w :
  ds_lock (w_descriptors w) = false →
  ds_descriptor_for_fd (w_descriptors w) !! fd = None →
  get_for_fd fd w = Raise KeyError w.
Proof.
  intros Hl Hfd. unfold get_for_fd. run. rewrite Hl. simpl. rewrite Hfd.
  by rewrite ds_unlock_locked.
Qed.

Lemma with_ds_lock_held {A} (body : M A) w :
  ds_lock (w_descriptors w) = true → with_ds_lock body w = Blocked w.
Proof. intros Hl. unfold with_ds_lock, ds_acquire. by rewrite Hl. Qed.

(** [_remove_descriptor] never returns and never reaches [close]: it raises
    [KeyError] where the key, the handle or the path is missing, and the
    [TypeError] of [self._kevents.remove] where all three are there, which
    it has then taken out. *)
Lemma _remove_descriptor_raises d w :
  let ds := w_descriptors w in
  _remove_descriptor d w =
  match ds_descriptors ds !! _key d with
  | None => Raise KeyError w
  | Some _ =>
      match ds_descriptor_for_fd ds !! d_fd d with
      | None =>
          Raise KeyError
            (set_descriptors
               (mkDescriptorSet (delete (_key d) (ds_descriptors ds))
                  (ds_descriptor_for_path ds) (ds_descriptor_for_fd ds)
                  (ds_kevents ds) (ds_lock ds)) w)
      | Some _ =>
          match ds_descriptor_for_path ds !! d_path d with
          | None =>
              Raise KeyError
                (set_descriptors
                   (mkDescriptorSet (delete (_key d) (ds_descriptors ds))
                      (ds_descriptor_for_path ds)
                      (delete (d_fd d) (ds_descriptor_for_fd ds))
                      (ds_kevents ds) (ds_lock ds)) w)
          | Some _ =>
              Raise TypeError
                (set_descriptors
                   (mkDescriptorSet (delete (_key d) (ds_descriptors ds))
                      (delete (d_path d) (ds_descriptor_for_path ds))
                      (delete (d_fd d) (ds_descriptor_for_fd ds))
                      (ds_kevents ds) (ds_lock ds)) w)
          end
      end
  end.
Proof.
  unfold _remove_descriptor, _kevents_remove, kevent_hash. run.
  destruct (ds_descriptors (w_descriptors w) !! _key d); simpl; [|done].
  destruct (ds_descriptor_for_fd (w_descriptors w) !! d_fd d); simpl; [|done].
  by destruct (ds_descriptor_for_path (w_descriptors w) !! d_path d).
Qed.

(** C9.  [get_for_fd] raises [KeyError] for every handle that has no
    descriptor.  But no [remove] ever makes a handle such a one: on a path
    that has a descriptor, [remove] stops on the lock it holds itself, with
    the descriptor still under its handle; a [get_for_fd] for that handle
    then waits on the same lock instead of failing, and before the [remove]
    it returns the descriptor.  [_remove_descriptor], the step [remove] never
    reaches, would not return either, and closes nothing. *)
Theorem get_for_fd_after_remove path w d :
  ds_lock (w_descriptors w) = false →
  ds_descriptor_for_path (w_descriptors w) !! absolute_path path = Some d →
  ds_descriptor_for_fd (w_descriptors w) !! d_fd d = Some d →
  (∀ fd, ds_descriptor_for_fd (w_descriptors w) !! fd = None →
         get_for_fd fd w = Raise KeyError w) ∧
  get_for_fd (d_fd d) w = Ok d w ∧
  remove path w = Blocked (ds_locked w) ∧
  ds_descriptor_for_fd (w_descriptors (ds_locked w)) !! d_fd d = Some d ∧
  get_for_fd (d_fd d) (ds_locked w) = Blocked (ds_locked w) ∧
  (∀ w0, ∃ ex w1, _remove_descriptor d w0 = Raise ex w1 ∧
                  w_open_fds w1 = w_open_fds w0).
Proof.
  intros Hl Hp Hfd.
  split; [intros fd; by apply get_for_fd_unknown|].
  split; [by apply get_for_fd_known|].
  split; [by eapply remove_registered_blocks|].
  split; [done|].
  split; [unfold get_for_fd; by rewrite with_ds_lock_held|].
  intros w0. rewrite _remove_descriptor_raises. cbv zeta.
  destruct (ds_descriptors (w_descriptors w0) !! _key d); [|eauto].
  destruct (ds_descriptor_for_fd (w_descriptors w0) !! d_fd d); [|eauto].
  destruct (ds_descriptor_for_path (w_descriptors w0) !! d_path d); eauto.
Qed.

(** ** [queue_event] *)

(** An event that is neither a move nor a deletion is appended, no more. *)
Lemma queue_event_fuel_plain fuel event w :
  event_type event ≠ EVENT_TYPE_MOVED →
  event_type event ≠ EVENT_TYPE_DELETED →
  queue_event_fuel (S fuel) event w = Ok tt (enqueue [event] w).
Proof.
  intros Hm Hd. unfold queue_event_fuel, EventEmitter_queue_event. run.
  by destruct (event_type event).
Qed.

(** A deletion for a path without descriptor: [remove] has nothing to do. *)
Lemma queue_event_fuel_deleted_absent fuel event w :
  event_type event = EVENT_TYPE_DELETED →
  ds_lock (w_descriptors w) = false →
  ds_descriptor_for_path (w_descriptors w) !! absolute_path (src_path event) = None →
  queue_event_fuel (S fuel) event w = Ok tt (enqueue [event] w).
Proof.
  intros Ht Hl Hp. unfold queue_event_fuel, EventEmitter_queue_event, _unregister.
  run. rewrite Ht. by rewrite remove_absent.
Qed.

(** A deletion for a path with a descriptor: the thread stops in [remove],
    holding both locks, and nothing is appended. *)
Lemma queue_event_fuel_deleted_registered fuel event w d :
  event_type event = EVENT_TYPE_DELETED →
  ds_lock (w_descriptors w) = false →
  ds_descriptor_for_path (w_descriptors w) !! absolute_path (src_path event) = Some d →
  queue_event_fuel (S fuel) event w
  = Blocked (ds_locked (set_lock (S (w_lock w)) w)).
Proof.
  intros Ht Hl Hp. unfold queue_event_fuel, EventEmitter_queue_event, _unregister.
  run. rewrite Ht. by erewrite remove_registered_blocks.
Qed.

(** A deletion never raises, and what it appends on return is the event. *)
Lemma queue_event_fuel_deleted_outcome fuel event w :
  event_type event = EVENT_TYPE_DELETED →
  queue_event_fuel (S fuel) event w = Ok tt (enqueue [event] w) ∨
  ∃ w', queue_event_fuel (S fuel) event w = Blocked w'.
Proof.
  intros Ht.
  destruct (ds_lock (w_descriptors w)) eqn:Hl.
  - right. unfold queue_event_fuel, _unregister. run. rewrite Ht.
    rewrite remove_locked_blocks by done. eauto.
  - destruct (ds_descriptor_for_path (w_descriptors w)
                !! absolute_path (src_path event)) eqn:Hp.
    + right. erewrite queue_event_fuel_deleted_registered by done. eauto.
    + left. by apply queue_event_fuel_deleted_absent.
Qed.

(** An event that is not a move is queued without recursion: any fuel that is
    not zero gives the same result. *)
Lemma queue_event_fuel_not_moved n m event w :
  event_type event ≠ EVENT_TYPE_MOVED →
  queue_event_fuel (S n) event w = queue_event_fuel (S m) event w.
Proof. intros Hm. simpl. destruct (event_type event); done. Qed.

(** Below a move, [queue_event] is only called on creations and deletions:
    the result of [_register] does not depend on the fuel its callback has
    left, if it has any. *)
Lemma _register_with_fuel n m path is_directory w :
  _register_with (queue_event_fuel (S n)) path is_directory w
  = _register_with (queue_event_fuel (S m)) path is_directory w.
Proof.
  unfold _register_with, try_except.
  by destruct (add path is_directory w) as [[] w'|ex w'|w'|].
Qed.

(** Two levels of recursion are all there are: more fuel changes nothing. *)
Lemma queue_event_fuel_stable n event w :
  queue_event_fuel (2 + n) event w = queue_event event w.
Proof.
  unfold queue_event. change (2 + n)%nat with (S (S n)).
  simpl. by destruct (event_type event).
Qed.

Lemma queue_event_unfold event :
  queue_event event =
  with_rlock (
    _ ← match event_type event with
        | EVENT_TYPE_MOVED =>
            _ ← _unregister (src_path event);
            dest ← event_dest_path event;
            _register_with (queue_event_fuel 1) dest (is_directory event)
        | EVENT_TYPE_DELETED => _unregister (src_path event)
        | _ => mret tt
        end;
    EventEmitter_queue_event event).
Proof. reflexivity. Qed.

Lemma enqueue_enqueue l1 l2 w :
  enqueue l2 (enqueue l1 w) = enqueue (l1 ++ l2) w.
Proof. unfold enqueue, set_event_queue. simpl. by rewrite app_assoc. Qed.

(** What [queue_event] can do.  When it returns, all it has changed is the
    queue, of which the event is now the last, with no move among those
    appended before it: the descriptor set is as it was.  It raises no
    [KeyError]. *)
Lemma queue_event_outcome event w :
  match queue_event event w with
  | Ok _ w' =>
      ∃ pre, w' = enqueue (pre ++ [event]) w ∧
             Forall (λ ev, event_type ev ≠ EVENT_TYPE_MOVED) pre
  | Raise ex _ => ex ≠ KeyError
  | _ => True
  end.
Proof.
  destruct (event_type event) eqn:Ht.
  1,3,4: unfold queue_event; rewrite queue_event_fuel_plain by congruence;
         exists []; split; [done|constructor].
  - unfold queue_event.
    destruct (queue_event_fuel_deleted_outcome 1 event w Ht) as [->|[w' ->]];
      [|done].
    exists []. split; [done|constructor].
  - rewrite queue_event_unfold, Ht.
    unfold with_rlock, mbind, M_bind, _unregister.
    destruct (remove_outcome (src_path event) (set_lock (S (w_lock w)) w))
      as [->|[w1 ->]]; [|done].
    unfold event_dest_path. destruct (dest_path event) as [dest|]; [|done].
    unfold mret, M_ret. cbv beta iota. unfold _register_with, try_except.
    pose proof (add_frame dest (is_directory event)
                          (set_lock (S (w_lock w)) w)) as Hadd.
    destruct (add dest (is_directory event) (set_lock (S (w_lock w)) w))
      as [[] w1|ex w1|w1|]; [| |done|done].
    + destruct Hadd as (-> & _).
      unfold EventEmitter_queue_event, modify. simpl.
      exists []. split; [done|constructor].
    + destruct Hadd as (_ & _ & _ & _ & _ & _ & _ & _ & _ & _ & Hex).
      destruct Hex as [(-> & _)|(-> & [[-> _]|(errno & -> & _)])];
        [done|done|].
      case_decide; [|done].
      destruct (is_directory event).
      * unfold mbind, M_bind. rewrite queue_event_fuel_plain by done.
        destruct (queue_event_fuel_deleted_outcome 0
                    (DirDeletedEvent (absolute_path dest))
                    (enqueue [DirCreatedEvent (absolute_path dest)]
                             (set_lock (S (w_lock w)) w)) eq_refl)
          as [->|[w2 ->]]; [|done].
        unfold EventEmitter_queue_event, modify. simpl.
        eexists [_; _].
        split; [unfold enqueue, set_event_queue; simpl;
                by rewrite <- !app_assoc|].
        by repeat constructor.
      * unfold mbind, M_bind. rewrite queue_event_fuel_plain by done.
        destruct (queue_event_fuel_deleted_outcome 0
                    (FileDeletedEvent (absolute_path dest))
                    (enqueue [FileCreatedEvent (absolute_path dest)]
                             (set_lock (S (w_lock w)) w)) eq_refl)
          as [->|[w2 ->]]; [|done].
        unfold EventEmitter_queue_event, modify. simpl.
        eexists [_; _].
        split; [unfold enqueue, set_event_queue; simpl;
                by rewrite <- !app_assoc|].
        by repeat constructor.
Qed.

(** A move between a source without descriptor and a destination that has
    one: both bookkeeping calls find nothing to do. *)
Lemma queue_event_moved_rekeyed event dest w d :
  event_type event = EVENT_TYPE_MOVED →
  dest_path event = Some dest →
  ds_lock (w_descriptors w) = false →
  ds_descriptor_for_path (w_descriptors w) !! absolute_path (src_path event) = None →
  ds_descriptor_for_path (w_descriptors w) !! absolute_path dest = Some d →
  queue_event event w = Ok tt (enqueue [event] w).
Proof.
  intros Ht Hd Hl Hs Hp. rewrite queue_event_unfold, Ht.
  unfold with_rlock, mbind, M_bind, _unregister.
  rewrite remove_absent by done.
  unfold event_dest_path. rewrite Hd. unfold mret, M_ret. cbv beta iota.
  unfold _register_with, try_except.
  by erewrite add_registered.
Qed.

(** A move or a deletion whose source path has a descriptor: the thread
    stops in [_unregister], that is in [remove], holding both locks. *)
Lemma queue_event_registered_blocks event w d :
  event_type event = EVENT_TYPE_MOVED ∨
  event_type event = EVENT_TYPE_DELETED →
  ds_lock (w_descriptors w) = false →
  ds_descriptor_for_path (w_descriptors w) !! absolute_path (src_path event)
  = Some d →
  queue_event event w = Blocked (ds_locked (set_lock (S (w_lock w)) w)).
Proof.
  intros [Ht|Ht] Hl Hp.
  - rewrite queue_event_unfold, Ht.
    unfold with_rlock, mbind, M_bind, _unregister.
    by erewrite remove_registered_blocks.
  - by eapply queue_event_fuel_deleted_registered.
Qed.

(** ** [_register] *)

(** Where the constructor does reach [os.open] and the path is gone, the
    handler of [_register] queues the two events. *)
Lemma _register_vanished path is_directory w :
  ds_lock (w_descriptors w) = false →
  ds_descriptor_for_path (w_descriptors w) !! absolute_path path = None →
  g_kev (w_globals w) = true →
  w_open_errno w !! absolute_path path = Some ENOENT →
  _register path is_directory w
  = Ok tt (enqueue
             [mkEvent EVENT_TYPE_CREATED is_directory (absolute_path path) None;
              mkEvent EVENT_TYPE_DELETED is_directory (absolute_path path) None]
             w).
Proof.
  intros Hl Hp Hk He.
  unfold _register, _register_with, try_except.
  rewrite add_unregistered, Hk, He by done.
  rewrite decide_True by done.
  unfold queue_event, mbind, M_bind.
  destruct is_directory.
  - rewrite queue_event_fuel_plain by done.
    rewrite queue_event_fuel_deleted_absent; simpl;
      rewrite ?absolute_path_idem; try done.
    unfold enqueue. simpl. by rewrite <- app_assoc.
  - rewrite queue_event_fuel_plain by done.
    rewrite queue_event_fuel_deleted_absent; simpl;
      rewrite ?absolute_path_idem; try done.
    unfold enqueue. simpl. by rewrite <- app_assoc.
Qed.

(** C6.  In the module as it is loaded, [_register] never gets as far as
    opening the path: the constructor of the descriptor reads the name [kev],
    which nothing binds, before it calls [os.open]; the [NameError] is no
    [OSError], so the handler of [_register] does not apply and the error goes
    to the caller.  This is so whatever [os.open] would have answered, for a
    path that has vanished (ENOENT) as for any other: no Created and no
    Deleted event is queued and the state is as it was. *)
Theorem register_raises_name_error path is_directory w :
  g_kev (w_globals w) = false →
  ds_lock (w_descriptors w) = false →
  ds_descriptor_for_path (w_descriptors w) !! absolute_path path = None →
  _register path is_directory w = Raise (NameError "kev") w.
Proof.
  intros Hk Hl Hp. unfold _register, _register_with, try_except.
  by rewrite add_unregistered, Hk.
Qed.

(** ** [_queue_file_renamed] *)

Lemma truthy_false z : z = 0 → truthy z = false.
Proof. by intros ->. Qed.

Lemma truthy_true z : z ≠ 0 → truthy z = true.
Proof. intros H. unfold truthy. by apply negb_true_iff, Z.eqb_neq. Qed.

(** C1.  For a suspect file path that the reference snapshot knows and that
    has a descriptor (the caller passes the path of the descriptor the kevent
    came in on), [_queue_file_renamed] emits nothing and never returns,
    whether the inode is in the new snapshot or not: the Moved or Deleted
    event it hands to [queue_event] makes that unregister the path first, and
    [remove] stops on its own lock.  And the one caller does not get that
    far in the module as it is loaded: it reads the names [ref_snapshot] and
    [new_snapshot], which nothing binds. *)
Theorem queue_file_renamed_blocks src ref_snapshot new_snapshot w entry d :
  snap_stat ref_snapshot !! src = Some entry →
  ds_lock (w_descriptors w) = false →
  ds_descriptor_for_path (w_descriptors w) !! absolute_path src = Some d →
  let stuck := ds_locked (set_lock (S (w_lock w)) w) in
  _queue_file_renamed src ref_snapshot new_snapshot w = Blocked stuck ∧
  w_event_queue stuck = w_event_queue w ∧
  ds_descriptor_for_path (w_descriptors stuck) !! absolute_path src = Some d ∧
  (∀ kev acc d',
     ds_descriptor_for_fd (w_descriptors w) !! kev_ident kev = Some d' →
     d_is_directory d' = false →
     is_deleted kev = 0 → is_attrib_modified kev = 0 →
     is_modified kev = 0 → is_renamed kev ≠ 0 →
     g_ref_snapshot (w_globals w) = None →
     handle_kev kev acc w = Raise (NameError "ref_snapshot") w).
Proof.
  intros Hstat Hl Hp stuck. subst stuck.
  split; [|split; [done|split; [done|]]].
  - unfold _queue_file_renamed, stat_info. rewrite Hstat.
    unfold try_except, path_for_inode, mbind, M_bind, mret, M_ret, raise.
    destruct (snap_inode new_snapshot !! st_ino entry) as [dest|].
    + by erewrite queue_event_registered_blocks by eauto.
    + by erewrite queue_event_registered_blocks by eauto.
  - intros kev acc d' Hfd Hfile Hdel Hattr Hmod Hren Hg.
    unfold handle_kev, mbind, M_bind.
    rewrite (get_for_fd_known _ _ d') by done.
    rewrite (truthy_false _ Hdel), (truthy_false _ Hattr),
            (truthy_false _ Hmod), (truthy_true _ Hren), Hfile.
    unfold lookup_global. by rewrite Hg.
Qed.

(** ** The batch of raw kevents *)

(** A mask with one bit is true of a word exactly when the word has the bit. *)
Lemma truthy_land_pow2 x n :
  0 ≤ n → truthy (Z.land x (2 ^ n)) = Z.testbit x n.
Proof.
  intros Hn. unfold truthy.
  destruct (Z.testbit x n) eqn:Hb.
  - apply negb_true_iff, Z.eqb_neq. intros H0.
    assert (Z.testbit (Z.land x (2 ^ n)) n = true) as Hbit.
    { by rewrite Z.land_spec, Hb, Z.pow2_bits_true. }
    rewrite H0, Z.bits_0 in Hbit. done.
  - apply negb_false_iff, Z.eqb_eq. apply Z.bits_inj'. intros m Hm.
    rewrite Z.land_spec, Z.bits_0.
    destruct (decide (n = m)) as [<-|Hne].
    + by rewrite Hb.
    + rewrite Z.pow2_bits_false by done. apply andb_false_r.
Qed.

Lemma is_deleted_bit kev :
  truthy (is_deleted kev) = Z.testbit (kev_fflags kev) 0.
Proof. exact (truthy_land_pow2 _ 0 ltac:(done)). Qed.

Lemma is_attrib_modified_bit kev :
  truthy (is_attrib_modified kev) = Z.testbit (kev_fflags kev) 3.
Proof. exact (truthy_land_pow2 _ 3 ltac:(done)). Qed.

Lemma is_renamed_bit kev :
  truthy (is_renamed kev) = Z.testbit (kev_fflags kev) 5.
Proof. exact (truthy_land_pow2 _ 5 ltac:(done)). Qed.

Lemma is_modified_bits kev :
  truthy (is_modified kev)
  = Z.testbit (kev_fflags kev) 2 || Z.testbit (kev_fflags kev) 1.
Proof.
  unfold is_modified, py_or.
  rewrite <- (truthy_land_pow2 _ 2), <- (truthy_land_pow2 _ 1) by done.
  change (2 ^ 2) with KQ_NOTE_EXTEND. change (2 ^ 1) with KQ_NOTE_WRITE.
  by destruct (truthy (Z.land (kev_fflags kev) KQ_NOTE_EXTEND)) eqn:E.
Qed.

Lemma for_each_kev_app pre rest acc w :
  for_each_kev (pre ++ rest) acc w
  = (acc' ← for_each_kev pre acc; for_each_kev rest acc') w.
Proof.
  revert acc w. induction pre as [|kev pre IH]; intros acc w; [done|].
  simpl. unfold mbind, M_bind in *.
  by destruct (handle_kev kev acc w).
Qed.

(** C3 (amended).  A raw kevent whose handle has no descriptor makes
    [get_for_fd] raise [KeyError], and the batch processing raises it to its
    caller there and then: no event is emitted for that kevent, those of the
    kevents before it stay in the queue, and the kevents after it are not
    looked at. *)
Theorem unknown_handle_raises pre kev rest w acc w1 :
  _queue_events_except_renames_and_dir_modifications pre w = Ok acc w1 →
  ds_lock (w_descriptors w1) = false →
  ds_descriptor_for_fd (w_descriptors w1) !! kev_ident kev = None →
  _queue_events_except_renames_and_dir_modifications (pre ++ kev :: rest) w
  = Raise KeyError w1.
Proof.
  unfold _queue_events_except_renames_and_dir_modifications.
  intros Hpre Hl Hfd. rewrite for_each_kev_app.
  unfold mbind, M_bind. rewrite Hpre. simpl.
  unfold handle_kev, mbind, M_bind.
  by rewrite get_for_fd_unknown.
Qed.

(** C4 (amended).  A raw kevent with the attribute flag and without the delete
    flag, on a handle that has a descriptor, is answered at once by a Modified
    event (the emitter has no event type of its own for attributes), tagged
    directory or file after the descriptor and carrying its path; nothing is
    deferred and the descriptor set is left alone. *)
Theorem attrib_signal_queues_modified kev acc w d :
  ds_lock (w_descriptors w) = false →
  ds_descriptor_for_fd (w_descriptors w) !! kev_ident kev = Some d →
  is_deleted kev = 0 →
  is_attrib_modified kev ≠ 0 →
  handle_kev kev acc w
  = Ok acc (enqueue [mkEvent EVENT_TYPE_MODIFIED (d_is_directory d)
                             (d_path d) None] w).
Proof.
  intros Hl Hfd Hdel Hattr. unfold handle_kev, mbind, M_bind.
  rewrite (get_for_fd_known _ _ d) by done.
  rewrite Hdel. simpl.
  assert (truthy (is_attrib_modified kev) = true) as ->.
  { unfold truthy. by apply negb_true_iff, Z.eqb_neq. }
  unfold queue_event.
  destruct (d_is_directory d); by rewrite queue_event_fuel_plain.
Qed.

(** C10.  The flags of a raw kevent are tried in a fixed order and the first
    that is set decides alone: the delete flag (bit 0) gives the deletion,
    whatever other flags are set; failing that the attribute flag (bit 3)
    gives the attribute branch; failing that the write or extend flag (bits 1
    and 2) gives the modification; the rename flag (bit 5) counts only when
    none of those is set; and with none of the five nothing is done. *)
Theorem classification_precedence kev acc w d w1 :
  get_for_fd (kev_ident kev) w = Ok d w1 →
  let bit n := Z.testbit (kev_fflags kev) n in
  let queued event := (_ ← queue_event event; mret acc) w1 in
  (bit 0 = true →
   handle_kev kev acc w
   = queued (mkEvent EVENT_TYPE_DELETED (d_is_directory d) (d_path d) None)) ∧
  (bit 0 = false → bit 3 = true →
   handle_kev kev acc w
   = queued (mkEvent EVENT_TYPE_MODIFIED (d_is_directory d) (d_path d) None)) ∧
  (bit 0 = false → bit 3 = false → bit 1 = true ∨ bit 2 = true →
   handle_kev kev acc w
   = if d_is_directory d
     then Ok (mkDeferred (files_renamed acc) (dirs_renamed acc)
                         ({[d_path d]} ∪ dirs_modified acc)) w1
     else queued (FileModifiedEvent (d_path d))) ∧
  (bit 0 = false → bit 3 = false → bit 1 = false → bit 2 = false →
   bit 5 = true →
   handle_kev kev acc w
   = if d_is_directory d
     then Ok (mkDeferred (files_renamed acc)
                         ({[d_path d]} ∪ dirs_renamed acc)
                         (dirs_modified acc)) w1
     else (ref_snapshot ← lookup_global "ref_snapshot" g_ref_snapshot;
           new_snapshot ← lookup_global "new_snapshot" g_new_snapshot;
           _ ← _queue_file_renamed (d_path d) ref_snapshot new_snapshot;
           mret acc) w1) ∧
  (bit 0 = false → bit 3 = false → bit 1 = false → bit 2 = false →
   bit 5 = false →
   handle_kev kev acc w = Ok acc w1).
Proof.
  intros Hget bit queued. subst bit queued. cbv beta.
  unfold handle_kev.
  unfold mbind, M_bind. rewrite Hget.
  rewrite is_deleted_bit, is_attrib_modified_bit, is_modified_bits,
          is_renamed_bit.
  repeat split.
  - intros ->. by destruct (d_is_directory d).
  - intros -> ->. by destruct (d_is_directory d).
  - intros -> -> [->| ->]; [rewrite orb_true_r|rewrite orb_true_l];
      by destruct (d_is_directory d).
  - intros -> -> -> -> ->. by destruct (d_is_directory d).
  - by intros -> -> -> -> ->.
Qed.

(** ** [queue_events] *)

(** The first expression of the loop body calls a list: the turn ends there,
    or before it on the descriptor set's lock. *)
Lemma queue_events_iteration_stops timeout w :
  queue_events_iteration timeout w
  = if ds_lock (w_descriptors w) then Blocked w else Raise TypeError w.
Proof.
  unfold queue_events_iteration, kevents, call_list. run.
  destruct (ds_lock (w_descriptors w)) eqn:Hl; [done|].
  simpl. by rewrite ds_unlock_locked.
Qed.

(** [queue_events] never returns normally, and it leaves the state as it
    found it: no batch read, no snapshot taken, nothing queued. *)
Lemma queue_events_outcome fuel timeout w :
  match queue_events fuel timeout w with
  | Ok _ _ => False
  | Raise _ w' | Blocked w' => w' = w
  | OutOfFuel => fuel = O
  end.
Proof.
  unfold queue_events. destruct fuel as [|fuel]; [done|].
  simpl. unfold mbind at 1. unfold M_bind at 1.
  rewrite queue_events_iteration_stops.
  destruct (ds_lock (w_descriptors w)); [done|].
  unfold lookup_global, exn_errno. run.
  destruct (g_OSerror (w_globals w)) as [cls|]; [|done].
  by destruct (cls TypeError).
Qed.

(** In the module as it is loaded the handler's class name is unbound, and
    what comes out is the [NameError] of that. *)
Lemma queue_events_raises fuel timeout w :
  ds_lock (w_descriptors w) = false →
  g_OSerror (w_globals w) = None →
  queue_events (S fuel) timeout w = Raise (NameError "OSerror") w.
Proof.
  intros Hl Hg. unfold queue_events. simpl.
  unfold mbind at 1. unfold M_bind at 1.
  rewrite queue_events_iteration_stops, Hl.
  unfold lookup_global. run. by rewrite Hg.
Qed.

(** ** The bookkeeping of [queue_event] *)

(** C5.  [queue_event] does none of the bookkeeping.  On a move or a deletion
    whose source path has a descriptor it never returns: [_unregister] is
    [remove], which stops on the lock it holds itself; the event is not
    appended, the descriptor stays in the path index and its handle stays
    open.  Whenever [queue_event] does return, for whatever event, the
    descriptor set and the open handles are exactly as they were: nothing has
    been unregistered and nothing registered.  And in the module as it is
    loaded a move between two paths without descriptor ends in the
    [NameError] of [_register], with the Moved event not appended. *)
Theorem queue_event_never_rekeys event w :
  ds_lock (w_descriptors w) = false →
  event_type event = EVENT_TYPE_MOVED ∨
  event_type event = EVENT_TYPE_DELETED →
  (∀ d, ds_descriptor_for_path (w_descriptors w)
          !! absolute_path (src_path event) = Some d →
     let stuck := ds_locked (set_lock (S (w_lock w)) w) in
     queue_event event w = Blocked stuck ∧
     w_event_queue stuck = w_event_queue w ∧
     w_open_fds stuck = w_open_fds w ∧
     ds_descriptor_for_path (w_descriptors stuck)
       !! absolute_path (src_path event) = Some d) ∧
  (∀ w', queue_event event w = Ok tt w' →
     w_descriptors w' = w_descriptors w ∧ w_open_fds w' = w_open_fds w) ∧
  (∀ dest, event_type event = EVENT_TYPE_MOVED →
     dest_path event = Some dest →
     g_kev (w_globals w) = false →
     ds_descriptor_for_path (w_descriptors w)
       !! absolute_path (src_path event) = None →
     ds_descriptor_for_path (w_descriptors w) !! absolute_path dest = None →
     queue_event event w = Raise (NameError "kev") w).
Proof.
  intros Hl Ht. split; [|split].
  - intros d Hp stuck. subst stuck.
    split; [by eapply queue_event_registered_blocks|done].
  - intros w' Hq. pose proof (queue_event_outcome event w) as Hout.
    rewrite Hq in Hout. by destruct Hout as (pre & -> & _).
  - intros dest Hmoved Hd Hk Hs Hdest. rewrite queue_event_unfold, Hmoved.
    unfold with_rlock, mbind, M_bind, _unregister.
    rewrite remove_absent by done.
    unfold event_dest_path. rewrite Hd. unfold mret, M_ret. cbv beta iota.
    unfold _register_with, try_except.
    rewrite add_unregistered by done. simpl. rewrite Hk.
    f_equal. by destruct w.
Qed.
(** * More of the module *)

(** ** [add] *)

(** X1.  [add] registers nothing.  With the lock free, on a path that has a
    descriptor it returns and changes nothing.  On any other path it raises,
    with both indices, the kevents and the event queue as they were and the
    lock free again: the [NameError] of the constructor where [kev] is
    unbound, or the [OSError] of [os.open] where the path cannot be opened,
    both with the state unchanged; or else the [TypeError] of
    [_add_descriptor], and then the handle the constructor opened stays
    open. *)
Theorem add_registers_nothing path is_directory w :
  ds_lock (w_descriptors w) = false →
  (∀ d, ds_descriptor_for_path (w_descriptors w) !! absolute_path path
        = Some d →
        add path is_directory w = Ok tt w) ∧
  (ds_descriptor_for_path (w_descriptors w) !! absolute_path path = None →
   ∃ ex w',
     add path is_directory w = Raise ex w' ∧
     ds_descriptor_for_path (w_descriptors w')
     = ds_descriptor_for_path (w_descriptors w) ∧
     ds_descriptor_for_fd (w_descriptors w')
     = ds_descriptor_for_fd (w_descriptors w) ∧
     ds_kevents (w_descriptors w') = ds_kevents (w_descriptors w) ∧
     ds_lock (w_descriptors w') = false ∧
     w_event_queue w' = w_event_queue w ∧
     match ex with
     | NameError name =>
         name = "kev" ∧ g_kev (w_globals w) = false ∧ w' = w
     | OSError errno =>
         g_kev (w_globals w) = true ∧
         w_open_errno w !! absolute_path path = Some errno ∧ w' = w
     | TypeError =>
         g_kev (w_globals w) = true ∧
         w_open_errno w !! absolute_path path = None ∧
         ∃ fd, (fd ∉ w_open_fds w) ∧ w_open_fds w' = {[fd]} ∪ w_open_fds w
     | _ => False
     end).
Proof.
  intros Hl. split; [intros d Hp; by eapply add_registered|].
  intros Hp. pose proof (add_frame path is_directory w) as Hadd.
  rewrite add_unregistered in Hadd |- * by done.
  destruct (g_kev (w_globals w)) eqn:Hk.
  - destruct (w_open_errno w !! absolute_path path) as [errno|] eqn:He.
    + eexists _, _. split; [done|]. by repeat split.
    + eexists _, _. split; [done|].
      destruct Hadd as (_ & _ & ? & ? & ? & ? & ? & _).
      repeat split; try done.
      eexists. split; [apply new_handle_fresh|done].
  - eexists _, _. split; [done|]. by repeat split.
Qed.

(** ** [close] and [_remove_descriptor] *)

Lemma close_closes d w :
  close d w = Ok tt (set_open_fds (w_open_fds w ∖ {[d_fd d]}) w).
Proof.
  unfold close, os_close. run.
  destruct (decide (d_fd d ∈ w_open_fds w)) as [Hin|Hout]; simpl; [done|].
  f_equal. destruct w; simpl in *. unfold set_open_fds. simpl. f_equal.
  apply set_eq. intros x. rewrite elem_of_difference, elem_of_singleton.
  split; [|tauto]. intros Hx. split; [done|]. by intros ->.
Qed.

(** X3.  [close] never raises, whether the handle is open or not (the
    [OSError] of closing a handle that is not open is swallowed); after it the
    handle is not open, no other handle is touched, and a second [close]
    changes nothing more. *)
Theorem close_idempotent d w :
  ∃ w', close d w = Ok tt w' ∧
        (d_fd d ∉ w_open_fds w') ∧
        (∀ fd, fd ≠ d_fd d → fd ∈ w_open_fds w' ↔ fd ∈ w_open_fds w) ∧
        w_descriptors w' = w_descriptors w ∧
        close d w' = Ok tt w'.
Proof.
  clear absolute_path_idem absolute_path.
  eexists. split; [apply close_closes|]. simpl.
  split; [set_solver|]. split; [set_solver|]. split; [done|].
  rewrite close_closes. simpl. f_equal.
  unfold set_open_fds. simpl. f_equal. set_solver.
Qed.

(** X4.  [_remove_descriptor] never returns and never closes the handle.
    Where the descriptor's key is in the set, its handle in the handle index
    and its path in the path index, it takes all three out and then raises
    the [TypeError] of [self._kevents.remove]: the handle stays open with no
    descriptor left to close it.  In every other case it raises [KeyError].
    The kevents and the open handles are never changed. *)
Theorem _remove_descriptor_never_returns d w :
  let ds := w_descriptors w in
  let present :=
    is_Some (ds_descriptors ds !! _key d) ∧
    is_Some (ds_descriptor_for_fd ds !! d_fd d) ∧
    is_Some (ds_descriptor_for_path ds !! d_path d) in
  ∃ ex w',
    _remove_descriptor d w = Raise ex w' ∧
    w_open_fds w' = w_open_fds w ∧
    ds_kevents (w_descriptors w') = ds_kevents ds ∧
    ((ex = TypeError ∧ present ∧
      ds_descriptors (w_descriptors w') !! _key d = None ∧
      ds_descriptor_for_fd (w_descriptors w') !! d_fd d = None ∧
      ds_descriptor_for_path (w_descriptors w') !! d_path d = None) ∨
     (ex = KeyError ∧ ¬ present)).
Proof.
  clear absolute_path_idem absolute_path.
  intros ds present. subst ds present. rewrite _remove_descriptor_raises.
  cbv zeta.
  destruct (ds_descriptors (w_descriptors w) !! _key d) eqn:Hk;
    [|eexists _, _; split; [done|]; repeat split; try done;
      right; split; [done|]; by intros ([? ?] & _)].
  destruct (ds_descriptor_for_fd (w_descriptors w) !! d_fd d) eqn:Hfd;
    [|eexists _, _; split; [done|]; repeat split; try done;
      right; split; [done|]; by intros (_ & [? ?] & _)].
  destruct (ds_descriptor_for_path (w_descriptors w) !! d_path d) eqn:Hp;
    [|eexists _, _; split; [done|]; repeat split; try done;
      right; split; [done|]; by intros (_ & _ & [? ?])].
  eexists _, _. split; [done|]. repeat split; try done.
  left. simpl. rewrite !lookup_delete_eq. eauto 10.
Qed.

(** ** The lock of the descriptor set *)

(** A body that only reads: the call gives the body's answer and leaves the
    state alone. *)
Lemma with_ds_lock_read {A} (f : World → exn + A) w :
  ds_lock (w_descriptors w) = false →
  with_ds_lock (λ w0, match f w0 with
                      | inr a => Ok a w0
                      | inl e => Raise e w0
                      end) w
  = match f (ds_locked w) with
    | inr a => Ok a w
    | inl e => Raise e w
    end.
Proof.
  intros Hl. unfold with_ds_lock, ds_acquire. rewrite Hl.
  destruct (f (ds_locked w)); by rewrite ds_unlock_locked.
Qed.

Lemma get_for_fd_state fd w :
  ds_lock (w_descriptors w) = false →
  get_for_fd fd w
  = match ds_descriptor_for_fd (w_descriptors w) !! fd with
    | Some d => Ok d w
    | None => Raise KeyError w
    end.
Proof.
  intros Hl.
  destruct (ds_descriptor_for_fd (w_descriptors w) !! fd) eqn:Hfd.
  - by apply get_for_fd_known.
  - by apply get_for_fd_unknown.
Qed.

Lemma getitem_state path w :
  ds_lock (w_descriptors w) = false →
  __getitem__ path w
  = match ds_descriptor_for_path (w_descriptors w) !! absolute_path path with
    | Some d => Ok d w
    | None => Raise KeyError w
    end.
Proof.
  intros Hl. unfold __getitem__. run. rewrite Hl. simpl.
  destruct (ds_descriptor_for_path (w_descriptors w) !! absolute_path path);
    by rewrite ds_unlock_locked.
Qed.

Lemma contains_state path w :
  ds_lock (w_descriptors w) = false →
  __contains__ path w
  = Ok (bool_decide (is_Some (ds_descriptor_for_path (w_descriptors w)
                                !! absolute_path path))) w.
Proof.
  intros Hl. unfold __contains__. run. rewrite Hl. simpl.
  by rewrite ds_unlock_locked.
Qed.

Lemma kevents_state w :
  ds_lock (w_descriptors w) = false →
  kevents w = Ok (elements (ds_kevents (w_descriptors w))) w.
Proof.
  intros Hl. unfold kevents. run. rewrite Hl. simpl.
  by rewrite ds_unlock_locked.
Qed.

Lemma paths_state w :
  ds_lock (w_descriptors w) = false →
  paths w = Ok (elements (dom (ds_descriptor_for_path (w_descriptors w)))) w.
Proof.
  intros Hl. unfold paths. run. rewrite Hl. simpl.
  by rewrite ds_unlock_locked.
Qed.

(** Closing the handles of a list of descriptors, as [clear] does. *)
Lemma close_all l w :
  foldr (λ d (rest : M unit), _ ← close d; rest) (mret tt) l w
  = Ok tt (set_open_fds (w_open_fds w ∖ list_to_set (d_fd <$> l)) w).
Proof.
  clear absolute_path_idem absolute_path.
  revert w. induction l as [|d l IH]; intros w; simpl.
  - unfold mret, M_ret. f_equal. destruct w. unfold set_open_fds. simpl.
    f_equal. set_solver.
  - unfold mbind, M_bind. rewrite close_closes, IH. simpl.
    f_equal. unfold set_open_fds. simpl. f_equal. set_solver.
Qed.

Lemma elem_of_set_handles ds fd :
  fd ∈ set_handles ds ↔ ∃ k d, ds_descriptors ds !! k = Some d ∧ d_fd d = fd.
Proof.
  unfold set_handles. rewrite elem_of_list_to_set, list_elem_of_fmap.
  split.
  - intros (d & -> & Hd). apply list_elem_of_fmap in Hd as ([k d'] & -> & Hkd).
    apply elem_of_map_to_list in Hkd. eauto.
  - intros (k & d & Hkd & <-). exists d. split; [done|].
    apply list_elem_of_fmap. exists (k, d). split; [done|].
    by apply elem_of_map_to_list.
Qed.

Lemma clear_state w :
  ds_lock (w_descriptors w) = false →
  clear w
  = Ok tt (set_open_fds (w_open_fds w ∖ set_handles (w_descriptors w))
             (set_descriptors KeventDescriptorSet_init w)).
Proof.
  clear absolute_path_idem absolute_path.
  intros Hl. unfold clear, with_ds_lock, ds_acquire. rewrite Hl.
  unfold mbind, M_bind, get_world.
  rewrite close_all. unfold modify_ds, modify. simpl. reflexivity.
Qed.

Lemma add_outcome_lock path is_directory w :
  ds_lock (w_descriptors w) = false →
  match add path is_directory w with
  | Ok _ w' | Raise _ w' => ds_lock (w_descriptors w') = false
  | _ => False
  end.
Proof.
  intros Hl. pose proof (add_frame path is_directory w) as Hadd.
  destruct (add path is_directory w) as [[] w'|ex w'|w'|].
  - by destruct Hadd as (-> & _).
  - by destruct Hadd as (_ & _ & _ & _ & _ & ? & _).
  - destruct Hadd as (_ & ?). congruence.
  - done.
Qed.

(** X6.  The lock of the descriptor set is never left held by a call that
    comes back: from a free lock every public method returns or raises with
    the lock free again, also when the body raises; the one call that does
    not come back is [remove] on a path that has a descriptor, which stays
    blocked with the lock held.  With the lock held, every public method
    blocks and changes nothing. *)
Theorem descriptor_set_lock_discipline m w :
  (ds_lock (w_descriptors w) = true → call_method m w = Blocked w) ∧
  (ds_lock (w_descriptors w) = false →
   match call_method m w with
   | Ok _ w' | Raise _ w' => ds_lock (w_descriptors w') = false
   | Blocked w' =>
       w' = ds_locked w ∧
       ∃ path, m = MethodRemove path ∧
               is_Some (ds_descriptor_for_path (w_descriptors w)
                          !! absolute_path path)
   | OutOfFuel => False
   end).
Proof.
  split.
  - intros Hl. destruct m; simpl; unfold mbind, M_bind.
    + by apply add_locked_blocks.
    + by apply remove_locked_blocks.
    + unfold get_for_fd. by rewrite with_ds_lock_held.
    + unfold __getitem__. by rewrite with_ds_lock_held.
    + unfold __contains__. by rewrite with_ds_lock_held.
    + unfold clear. by rewrite with_ds_lock_held.
    + unfold kevents. by rewrite with_ds_lock_held.
    + unfold paths. by rewrite with_ds_lock_held.
  - intros Hl. destruct m as [path isdir|path|fd|path|path| | |]; simpl;
      unfold mbind, M_bind.
    + pose proof (add_outcome_lock path isdir w Hl) as H.
      by destruct (add path isdir w).
    + destruct (ds_descriptor_for_path (w_descriptors w) !! absolute_path path)
        eqn:Hp.
      * erewrite remove_registered_blocks by done. split; [done|].
        exists path. by rewrite Hp.
      * by rewrite remove_absent.
    + rewrite get_for_fd_state by done.
      by destruct (ds_descriptor_for_fd (w_descriptors w) !! fd).
    + rewrite getitem_state by done.
      by destruct (ds_descriptor_for_path (w_descriptors w) !! absolute_path path).
    + by rewrite contains_state.
    + by rewrite clear_state.
    + by rewrite kevents_state.
    + by rewrite paths_state.
Qed.

Lemma call_method_held m w :
  ds_lock (w_descriptors w) = true → call_method m w = Blocked w.
Proof.
  intros Hl. destruct m; simpl; unfold mbind, M_bind.
  - by apply add_locked_blocks.
  - by apply remove_locked_blocks.
  - unfold get_for_fd. by rewrite with_ds_lock_held.
  - unfold __getitem__. by rewrite with_ds_lock_held.
  - unfold __contains__. by rewrite with_ds_lock_held.
  - unfold clear. by rewrite with_ds_lock_held.
  - unfold kevents. by rewrite with_ds_lock_held.
  - unfold paths. by rewrite with_ds_lock_held.
Qed.


(** ** Nothing is ever registered *)

Lemma call_method_registers_nothing m w :
  nothing_registered (w_descriptors w) →
  ds_lock (w_descriptors w) = false →
  nothing_registered (w_descriptors (state_after (call_method m w) w)) ∧
  ds_lock (w_descriptors (state_after (call_method m w) w)) = false ∧
  (g_kev (w_globals w) = false →
   ds_descriptors (w_descriptors w) = ∅ →
   state_after (call_method m w) w = w).
Proof.
  clear absolute_path_idem.
  intros Hn Hl. pose proof Hn as (Hp & Hfd & Hkev).
  destruct m as [path isdir|path|fd|path|path| | |]; simpl;
    unfold mbind, M_bind.
  - destruct (run_call_registers_nothing (CallAdd path isdir) w Hn Hl)
      as (? & ? & ?). eauto.
  - destruct (run_call_registers_nothing (CallRemove path) w Hn Hl)
      as (? & ? & ?). eauto.
  - rewrite get_for_fd_state by done.
    by destruct (ds_descriptor_for_fd (w_descriptors w) !! fd).
  - rewrite getitem_state by done.
    by destruct (ds_descriptor_for_path (w_descriptors w) !! absolute_path path).
  - by rewrite contains_state.
  - rewrite clear_state by done. simpl. split; [done|]. split; [done|].
    intros _ Hempty. unfold set_handles. rewrite Hempty, map_to_list_empty.
    simpl. destruct w as [[] ? ? ? ? ? ? ? ?]; simpl in *.
    unfold set_open_fds, set_descriptors, KeventDescriptorSet_init. simpl.
    subst. f_equal. set_solver.
  - by rewrite kevents_state.
  - by rewrite paths_state.
Qed.

Lemma call_methods_register_nothing ms w :
  nothing_registered (w_descriptors w) →
  ds_lock (w_descriptors w) = false →
  nothing_registered (w_descriptors (call_methods ms w)) ∧
  ds_lock (w_descriptors (call_methods ms w)) = false ∧
  (g_kev (w_globals w) = false →
   ds_descriptors (w_descriptors w) = ∅ →
   call_methods ms w = w).
Proof.
  clear absolute_path_idem.
  revert w. induction ms as [|m ms IH]; intros w Hn Hl; simpl; [done|].
  destruct (call_method_registers_nothing m w Hn Hl) as (Hn1 & Hl1 & Hsame).
  destruct (IH _ Hn1 Hl1) as (Hn2 & Hl2 & Hsame2).
  split; [done|]. split; [done|].
  intros Hk Hempty. rewrite (Hsame Hk Hempty) in Hsame2 |- *.
  by apply Hsame2.
Qed.

(** X7.  Whatever public methods are called on a new descriptor set, in
    whatever order, nothing is ever registered: both indices and the kevents
    stay empty and the lock free, so that afterwards every [__contains__]
    answers [False], every [__getitem__] and [get_for_fd] raises [KeyError],
    and [kevents] and [paths] are empty lists ([kqueue.control] is never
    given a kevent to watch).  In the module as it is loaded the calls leave
    the state exactly as it was. *)
Theorem lookups_never_find ms w0 :
  w_descriptors w0 = KeventDescriptorSet_init →
  let w := call_methods ms w0 in
  nothing_registered (w_descriptors w) ∧
  ds_lock (w_descriptors w) = false ∧
  (∀ path, __contains__ path w = Ok false w ∧
           __getitem__ path w = Raise KeyError w) ∧
  (∀ fd, get_for_fd fd w = Raise KeyError w) ∧
  kevents w = Ok [] w ∧
  paths w = Ok [] w ∧
  (g_kev (w_globals w0) = false → w = w0).
Proof.
  clear absolute_path_idem.
  intros Hinit w.
  destruct (call_methods_register_nothing ms w0) as (Hn & Hl & Hsame);
    [by rewrite Hinit..|].
  fold w in Hn, Hl, Hsame. pose proof Hn as (Hp & Hfd & Hkev).
  split; [done|]. split; [done|].
  split; [|split; [|split; [|split]]].
  - intros path. rewrite contains_state, getitem_state by done.
    by rewrite Hp, lookup_empty.
  - intros fd. rewrite get_for_fd_state by done. by rewrite Hfd, lookup_empty.
  - rewrite kevents_state by done. by rewrite Hkev, elements_empty.
  - rewrite paths_state by done. by rewrite Hp, dom_empty_L, elements_empty.
  - intros Hk. apply Hsame; [done|by rewrite Hinit].
Qed.

(** X8.  [clear] with the lock free always returns: it closes the handle of
    every descriptor in the set, also when a handle is closed already,
    leaves every other open handle open, empties the set, both indices and
    the kevents, and releases the lock.  Where the indices agree, no handle of
    the handle index stays open. *)
Theorem clear_closes_everything w :
  ds_lock (w_descriptors w) = false →
  ∃ w', clear w = Ok tt w' ∧
        w_descriptors w' = KeventDescriptorSet_init ∧
        (∀ fd, fd ∈ w_open_fds w' ↔
               fd ∈ w_open_fds w ∧
               ¬ ∃ k d, ds_descriptors (w_descriptors w) !! k = Some d ∧
                        d_fd d = fd) ∧
        (consistent w →
         ∀ fd d, ds_descriptor_for_fd (w_descriptors w) !! fd = Some d →
                 fd ∉ w_open_fds w') ∧
        w_event_queue w' = w_event_queue w.
Proof.
  clear absolute_path_idem absolute_path.
  intros Hl. eexists. split; [by apply clear_state|]. simpl.
  split; [done|]. split; [|split; [|done]].
  - intros fd. rewrite elem_of_difference, elem_of_set_handles. done.
  - intros [Hpe Hfe _ _] fd d Hfd.
    rewrite elem_of_difference, elem_of_set_handles.
    intros [_ Hno]. apply Hno.
    destruct (Hfe _ _ Hfd) as (Hfd' & Hp & _).
    destruct (Hpe _ _ Hp) as (_ & _ & Hset & _). eauto.
Qed.


(** ** More on [_queue_file_renamed] and the batch *)

(** X10.  A renamed file that the reference snapshot does not know is taken
    for a temporary file: [_queue_file_renamed] queues a Created event for
    the path and hands a Deleted event to [queue_event], without looking at
    the new snapshot.  If the path has a descriptor, as the path the caller
    passes has, the call never returns: it stops in [remove] with the Created
    event queued and the Deleted one not.  If it has none, both events are
    queued and nothing else is changed; the method then ends at the stray
    [continue]: read as [return] it returns, taken out it lets control reach
    the read of the unbound local [ref_stat_info]. *)
Theorem queue_file_renamed_unknown_path src ref_snapshot new_snapshot w :
  snap_stat ref_snapshot !! src = None →
  ds_lock (w_descriptors w) = false →
  (∀ d, ds_descriptor_for_path (w_descriptors w) !! absolute_path src
        = Some d →
     _queue_file_renamed src ref_snapshot new_snapshot w
     = Blocked (ds_locked (set_lock (S (w_lock w))
                                    (enqueue [FileCreatedEvent src] w)))) ∧
  (ds_descriptor_for_path (w_descriptors w) !! absolute_path src = None →
   let w' := enqueue [FileCreatedEvent src; FileDeletedEvent src] w in
   _queue_file_renamed src ref_snapshot new_snapshot w
   = match stray_continue with
     | ContinueIsReturn => Ok tt w'
     | ContinueIsDeleted => Raise (UnboundLocalError "ref_stat_info") w'
     end) ∧
  (∀ other_snapshot,
     _queue_file_renamed src ref_snapshot other_snapshot w
     = _queue_file_renamed src ref_snapshot new_snapshot w).
Proof.
  clear absolute_path_idem.
  intros Hstat Hl.
  assert (Hbody : ∀ snapshot,
    _queue_file_renamed src ref_snapshot snapshot w =
    match queue_event (FileDeletedEvent src)
                      (enqueue [FileCreatedEvent src] w) with
    | Ok _ w' =>
        match stray_continue with
        | ContinueIsReturn => Ok tt w'
        | ContinueIsDeleted => Raise (UnboundLocalError "ref_stat_info") w'
        end
    | Raise e w' => Raise e w'
    | Blocked w' => Blocked w'
    | OutOfFuel => OutOfFuel
    end).
  { intros snapshot.
    unfold _queue_file_renamed, stat_info. rewrite Hstat.
    unfold try_except, mbind, M_bind, raise.
    unfold queue_event at 1. rewrite queue_event_fuel_plain by done.
    destruct (queue_event (FileDeletedEvent src) _) as [[] ?|?|?|];
      try done.
    unfold mret, M_ret. by destruct stray_continue. }
  split; [|split].
  - intros d Hp. rewrite Hbody.
    by erewrite queue_event_registered_blocks by eauto.
  - intros Hp w'. subst w'. rewrite Hbody. unfold queue_event.
    rewrite queue_event_fuel_deleted_absent by done.
    by rewrite enqueue_enqueue.
  - intros other. by rewrite !Hbody.
Qed.

(** Events are only ever appended. *)
Lemma queue_event_prefix event w w' :
  queue_event event w = Ok tt w' → w_event_queue w `prefix_of` w_event_queue w'.
Proof.
  intros Hq. pose proof (queue_event_outcome event w) as Hout.
  rewrite Hq in Hout. destruct Hout as (pre & -> & _).
  by apply prefix_app_r.
Qed.

Lemma queue_file_renamed_prefix src ref_snapshot new_snapshot w w' :
  _queue_file_renamed src ref_snapshot new_snapshot w = Ok tt w' →
  w_event_queue w `prefix_of` w_event_queue w'.
Proof.
  unfold _queue_file_renamed, stat_info.
  destruct (snap_stat ref_snapshot !! src) as [entry|].
  - unfold try_except, path_for_inode, mbind, M_bind, mret, M_ret, raise.
    destruct (snap_inode new_snapshot !! st_ino entry) as [dest|].
    + pose proof (queue_event_outcome (FileMovedEvent src dest) w) as Hout.
      destruct (queue_event (FileMovedEvent src dest) w) as [[] w2|ex w2|w2|]
        eqn:Hq; try done.
      * intros [= <-]. by eapply queue_event_prefix.
      * by destruct ex.
    + apply queue_event_prefix.
  - unfold try_except, mbind, M_bind, mret, M_ret, raise.
    destruct (queue_event (FileCreatedEvent src) w) as [[] w1|ex w1|w1|] eqn:H1;
      try done.
    destruct (queue_event (FileDeletedEvent src) w1) as [[] w2|ex w2|w2|] eqn:H2;
      try done.
    destruct stray_continue; [|done].
    intros [= <-].
    etrans; eapply queue_event_prefix; eauto.
Qed.

Lemma handle_kev_returns kev acc w acc' w' :
  handle_kev kev acc w = Ok acc' w' →
  files_renamed acc' = files_renamed acc ∧
  dirs_renamed acc ⊆ dirs_renamed acc' ∧
  dirs_modified acc ⊆ dirs_modified acc' ∧
  w_event_queue w `prefix_of` w_event_queue w'.
Proof.
  clear absolute_path_idem.
  unfold handle_kev. unfold mbind at 1. unfold M_bind at 1.
  destruct (get_for_fd (kev_ident kev) w) as [d w0|ex w0|w0|] eqn:Hget;
    try done.
  assert (w0 = w) as ->.
  { revert Hget. unfold get_for_fd. run.
    destruct (ds_lock (w_descriptors w)) eqn:Hl; [done|]. simpl.
    destruct (ds_descriptor_for_fd (w_descriptors w) !! kev_ident kev);
      [|done].
    intros [= _ <-]. by apply ds_unlock_locked. }
  assert (Hq : ∀ event, (_ ← queue_event event; mret acc) w = Ok acc' w' →
            files_renamed acc' = files_renamed acc ∧
            dirs_renamed acc ⊆ dirs_renamed acc' ∧
            dirs_modified acc ⊆ dirs_modified acc' ∧
            w_event_queue w `prefix_of` w_event_queue w').
  { intros event. unfold mbind, M_bind, mret, M_ret.
    destruct (queue_event event w) as [[] w1|ex w1|w1|] eqn:Hqe; try done.
    intros [= <- <-]. repeat split; try done. by eapply queue_event_prefix. }
  destruct (truthy (is_deleted kev)).
  { destruct (d_is_directory d); apply Hq. }
  destruct (truthy (is_attrib_modified kev)).
  { destruct (d_is_directory d); apply Hq. }
  destruct (truthy (is_modified kev)).
  { destruct (d_is_directory d); [|apply Hq].
    intros [= <- <-]. simpl. repeat split; try done. set_solver. }
  destruct (truthy (is_renamed kev)).
  { destruct (d_is_directory d).
    - intros [= <- <-]. simpl. repeat split; try done. set_solver.
    - unfold lookup_global, mbind, M_bind, mret, M_ret.
      destruct (g_ref_snapshot (w_globals w)) as [r|]; [|done].
      destruct (g_new_snapshot (w_globals w)) as [n|]; [|done].
      destruct (_queue_file_renamed (d_path d) r n w) as [[] w1|ex w1|w1|]
        eqn:Hr; try done.
      intros [= <- <-]. repeat split; try done.
      by eapply queue_file_renamed_prefix. }
  intros [= <- <-]. done.
Qed.

(** X11.  What the batch processing never does: it never puts a path into the
    first of the three sets it returns ([files_renamed] is always empty), and
    it never drops or reorders what is in the event queue: the queue before
    the batch is a prefix of the queue after it. *)
Theorem batch_never_fills_files_renamed event_list w acc w' :
  _queue_events_except_renames_and_dir_modifications event_list w = Ok acc w' →
  files_renamed acc = ∅ ∧
  w_event_queue w `prefix_of` w_event_queue w'.
Proof.
  clear absolute_path_idem.
  unfold _queue_events_except_renames_and_dir_modifications.
  assert (∀ acc0, for_each_kev event_list acc0 w = Ok acc w' →
            files_renamed acc = files_renamed acc0 ∧
            w_event_queue w `prefix_of` w_event_queue w') as Hgen.
  { revert w. induction event_list as [|kev rest IH]; intros w acc0; simpl.
    - by intros [= <- <-].
    - unfold mbind, M_bind.
      destruct (handle_kev kev acc0 w) as [acc1 w1|ex w1|w1|] eqn:Hk; try done.
      intros Hrest. apply IH in Hrest as (Hf & Hq).
      apply handle_kev_returns in Hk as (Hf1 & _ & _ & Hq1).
      split; [congruence|by etrans]. }
  intros H. by apply Hgen in H.
Qed.

Lemma handle_kev_answered kev event acc w :
  ds_lock (w_descriptors w) = false →
  answered_at_once w kev event →
  handle_kev kev acc w = Ok acc (enqueue [event] w).
Proof.
  intros Hl (d & Hfd & Hdel & Hflags & ->).
  unfold handle_kev, mbind, M_bind.
  rewrite (get_for_fd_known _ _ d) by done.
  rewrite (truthy_false _ Hdel). unfold queue_event.
  destruct Hflags as [Hattr|[Hmod Hfile]].
  - rewrite (truthy_true _ Hattr).
    destruct (d_is_directory d); by rewrite queue_event_fuel_plain.
  - destruct (truthy (is_attrib_modified kev)).
    + destruct (d_is_directory d); by rewrite queue_event_fuel_plain.
    + rewrite (truthy_true _ Hmod), Hfile.
      by rewrite queue_event_fuel_plain.
Qed.

(** X12.  A batch of kevents each of which is answered on the spot (attribute
    changes, and writes to files, on handles that have descriptors) puts one
    Modified event per kevent into the queue, in the order of the batch;
    nothing is deferred and the descriptor set is not touched. *)
Theorem batch_of_modifications_in_order event_list events w :
  ds_lock (w_descriptors w) = false →
  Forall2 (answered_at_once w) event_list events →
  _queue_events_except_renames_and_dir_modifications event_list w
  = Ok (mkDeferred ∅ ∅ ∅) (enqueue events w).
Proof.
  unfold _queue_events_except_renames_and_dir_modifications.
  generalize (mkDeferred ∅ ∅ ∅). intros acc Hl Hall.
  assert (∀ w1, w_descriptors w1 = w_descriptors w →
            for_each_kev event_list acc w1 = Ok acc (enqueue events w1)) as Hgen.
  { induction Hall as [|kev event rest events Hkev Hrest IH];
      intros w1 Hds; simpl.
    - unfold mret, M_ret, enqueue. f_equal. destruct w1; simpl.
      unfold set_event_queue. simpl. by rewrite app_nil_r.
    - unfold mbind, M_bind.
      rewrite (handle_kev_answered kev event); cycle 1.
      { by rewrite Hds. }
      { unfold answered_at_once. by rewrite Hds. }
      rewrite IH by done.
      unfold enqueue. simpl. by rewrite <- app_assoc. }
  by apply Hgen.
Qed.

Lemma handle_kev_deferred kev path renamed acc w :
  ds_lock (w_descriptors w) = false →
  deferred_directory w kev path renamed →
  handle_kev kev acc w
  = Ok (if renamed
        then mkDeferred (files_renamed acc) ({[path]} ∪ dirs_renamed acc)
                        (dirs_modified acc)
        else mkDeferred (files_renamed acc) (dirs_renamed acc)
                        ({[path]} ∪ dirs_modified acc)) w.
Proof.
  intros Hl (d & Hfd & Hdir & <- & Hdel & Hattr & Hflags).
  unfold handle_kev, mbind, M_bind.
  rewrite (get_for_fd_known _ _ d) by done.
  rewrite (truthy_false _ Hdel), (truthy_false _ Hattr), Hdir.
  destruct renamed.
  - destruct Hflags as [Hmod Hren].
    by rewrite (truthy_false _ Hmod), (truthy_true _ Hren).
  - by rewrite (truthy_true _ Hflags).
Qed.

(** X13.  A batch of kevents on directories that carry only write, extend or
    rename flags queues no event and changes nothing in the state: each
    directory's path is put into the set of modified directories (write or
    extend set) or into the set of renamed directories (rename alone), and
    that is all the two sets hold. *)
Theorem batch_of_directories_is_deferred event_list deferred w :
  ds_lock (w_descriptors w) = false →
  Forall2 (λ kev (entry : string * bool),
             deferred_directory w kev entry.1 entry.2) event_list deferred →
  ∃ acc,
    _queue_events_except_renames_and_dir_modifications event_list w = Ok acc w ∧
    files_renamed acc = ∅ ∧
    (∀ p, p ∈ dirs_renamed acc ↔ (p, true) ∈ deferred) ∧
    (∀ p, p ∈ dirs_modified acc ↔ (p, false) ∈ deferred).
Proof.
  clear absolute_path_idem.
  unfold _queue_events_except_renames_and_dir_modifications.
  intros Hl Hall.
  assert (∀ acc0, ∃ acc,
            for_each_kev event_list acc0 w = Ok acc w ∧
            files_renamed acc = files_renamed acc0 ∧
            (∀ p, p ∈ dirs_renamed acc ↔
                  p ∈ dirs_renamed acc0 ∨ (p, true) ∈ deferred) ∧
            (∀ p, p ∈ dirs_modified acc ↔
                  p ∈ dirs_modified acc0 ∨ (p, false) ∈ deferred)) as Hgen.
  { induction Hall as [|kev [path renamed] rest deferred Hkev Hrest IH];
      intros acc0; simpl.
    - exists acc0. split; [done|]. split; [done|].
      split; intros p; rewrite elem_of_nil; tauto.
    - unfold mbind, M_bind.
      rewrite (handle_kev_deferred kev path renamed) by done.
      destruct (IH (if renamed
                    then mkDeferred (files_renamed acc0)
                                    ({[path]} ∪ dirs_renamed acc0)
                                    (dirs_modified acc0)
                    else mkDeferred (files_renamed acc0) (dirs_renamed acc0)
                                    ({[path]} ∪ dirs_modified acc0)))
        as (acc & -> & Hf & Hr & Hm).
      exists acc. split; [done|].
      destruct renamed; simpl in *.
      + split; [done|]. split; intros p; rewrite ?Hr, ?Hm, elem_of_cons;
          set_solver.
      + split; [done|]. split; intros p; rewrite ?Hr, ?Hm, elem_of_cons;
          set_solver. }
  destruct (Hgen (mkDeferred ∅ ∅ ∅)) as (acc & Hrun & Hf & Hr & Hm).
  exists acc. split; [done|]. split; [done|].
  split; intros p; rewrite ?Hr, ?Hm; simpl; set_solver.
Qed.

(** ** The walk of a new emitter *)

(** X14.  The walk that [KqueueEmitter.__init__] starts, in the module as it
    is loaded: [walker_callback] returns, changing nothing, on an entry that
    has a descriptor, and raises the [NameError] of the descriptor's
    constructor on the first entry that has none, which ends the walk with
    the state as it was.  On a new emitter, whose descriptor set is empty,
    that is the first entry found: the constructor of the emitter cannot
    complete on a tree that has any entry. *)
Theorem walk_stops_at_first_new_entry registered path stat_info rest w :
  g_kev (w_globals w) = false →
  ds_lock (w_descriptors w) = false →
  Forall (λ entry : string * DirectoryEntry,
            is_Some (ds_descriptor_for_path (w_descriptors w)
                       !! absolute_path entry.1)) registered →
  ds_descriptor_for_path (w_descriptors w) !! absolute_path path = None →
  walk_with_callback registered w = Ok tt w ∧
  walk_with_callback (registered ++ (path, stat_info) :: rest) w
  = Raise (NameError "kev") w.
Proof.
  clear absolute_path_idem.
  intros Hk Hl Hall Hp.
  induction Hall as [|[p st] registered [d Hd] Hrest IH]; simpl.
  - split; [done|].
    unfold mbind, M_bind, walker_callback, _register, _register_with,
      try_except.
    by rewrite add_unregistered, Hk.
  - unfold mbind, M_bind, walker_callback, _register, _register_with,
      try_except.
    simpl in Hd. erewrite add_registered by done. exact IH.
Qed.

(** ** [on_thread_exit] *)

(** X15.  [on_thread_exit], with the descriptor set's lock free, always
    returns: afterwards the descriptor set is empty, the handle of every
    descriptor that was in the set is closed and so is the kqueue's own, no
    handle has been opened, the event queue is as it was and the emitter's
    lock is back at the depth it had. *)
Theorem on_thread_exit_releases kq w :
  ds_lock (w_descriptors w) = false →
  ∃ w', on_thread_exit kq w = Ok tt w' ∧
        w_descriptors w' = KeventDescriptorSet_init ∧
        (kq ∉ w_open_fds w') ∧
        (∀ k d, ds_descriptors (w_descriptors w) !! k = Some d →
                d_fd d ∉ w_open_fds w') ∧
        w_open_fds w' ⊆ w_open_fds w ∧
        w_event_queue w' = w_event_queue w ∧
        w_lock w' = w_lock w.
Proof.
  clear absolute_path_idem absolute_path.
  intros Hl. eexists. split.
  { unfold on_thread_exit, with_rlock, mbind, M_bind.
    rewrite clear_state by done. unfold kqueue_close, modify. reflexivity. }
  simpl. split; [done|]. split; [set_solver|].
  split; [|split; [set_solver|done]].
  intros k d Hkd Hin.
  apply elem_of_difference in Hin as [Hin _].
  apply elem_of_difference in Hin as [_ Hno].
  apply Hno, elem_of_set_handles. eauto.
Qed.

End Kqueue.

(** * The sample states *)

Lemma sample_absolute_path_idem p :
  sample_absolute_path (sample_absolute_path p) = sample_absolute_path p.
Proof.
  unfold sample_absolute_path.
  destruct (String.prefix "/" p) eqn:E; [by rewrite E|reflexivity].
Qed.

(** C8.  [remove] on the tracked path never returns: it stops in [self[path]]
    on the lock it holds itself, with the lock held, the descriptor still in
    both indices and its handle still open.  The same happens under another
    spelling of the path. *)
Theorem remove_tracked_path_blocks :
  let stuck := ds_locked tracked_world in
  remove sample_absolute_path "/w/a.txt" tracked_world = Blocked stuck ∧
  remove sample_absolute_path "a.txt" tracked_world = Blocked stuck ∧
  ds_lock (w_descriptors stuck) = true ∧
  ds_descriptor_for_path (w_descriptors stuck) !! "/w/a.txt"
  = Some descriptor_a ∧
  ds_descriptor_for_fd (w_descriptors stuck) !! 3 = Some descriptor_a ∧
  w_open_fds stuck = w_open_fds tracked_world.
Proof. vm_compute. done. Qed.

(** [queue_event] on a move from, or a deletion of, the tracked path never
    returns either: it stops in [_unregister], that is in the same [remove];
    the descriptor of the path stays in the path index and the event is not
    appended to the queue. *)
Lemma queue_event_tracked_path_blocks :
  let stuck := ds_locked (set_lock 1 tracked_world) in
  queue_event sample_absolute_path (FileMovedEvent "/w/a.txt" "/w/b.txt")
              tracked_world = Blocked stuck ∧
  queue_event sample_absolute_path (FileDeletedEvent "/w/a.txt")
              tracked_world = Blocked stuck ∧
  ds_descriptor_for_path (w_descriptors stuck) !! "/w/a.txt" = Some descriptor_a ∧
  w_event_queue stuck = [].
Proof. vm_compute. done. Qed.

(** C2.  [queue_events] on an emitter whose kernel queue holds a write
    notification for the watched directory: whatever the number of turns
    allowed, and however the stray [continue] is repaired, the call ends in
    the first turn with an exception, the batch unread, the saved snapshot
    not replaced, nothing queued and the descriptor set untouched; and the
    two handlers a resync would go through do nothing. *)
Theorem queue_events_never_resyncs stray_continue fuel :
  queue_events sample_absolute_path stray_continue (S fuel) 1 resync_world
  = Raise (NameError "OSerror") resync_world ∧
  _queue_from_dirs_renamed (w_snapshot resync_world) (w_disk resync_world)
                           ({["/w"]} : gset string) resync_world
  = Ok tt resync_world ∧
  _queue_from_dirs_modified (w_snapshot resync_world) (w_disk resync_world)
                            ({["/w"]} : gset string) resync_world
  = Ok tt resync_world.
Proof.
  split; [|done]. by apply queue_events_raises.
Qed.

(** C3, counterexample.  A batch of two write notifications, the first on
    handle 9, which has no descriptor, the second on the handle of the tracked
    file: the batch ends with [KeyError] at the first, and the Modified event
    of the second is never queued.  This is so under either repair of the
    stray [continue]. *)
Lemma unknown_handle_stops_batch :
  Forall (λ stray_continue,
    _queue_events_except_renames_and_dir_modifications
      sample_absolute_path stray_continue
      [select_kevent 9 WATCHDOG_KQ_FILTER WATCHDOG_KQ_EV_FLAGS KQ_NOTE_WRITE;
       select_kevent 3 WATCHDOG_KQ_FILTER WATCHDOG_KQ_EV_FLAGS KQ_NOTE_WRITE]
      tracked_world
    = Raise KeyError tracked_world ∧
    w_event_queue tracked_world = [] ∧
    _queue_events_except_renames_and_dir_modifications
      sample_absolute_path stray_continue
      [select_kevent 3 WATCHDOG_KQ_FILTER WATCHDOG_KQ_EV_FLAGS KQ_NOTE_WRITE]
      tracked_world
    = Ok (mkDeferred ∅ ∅ ∅)
         (set_event_queue [FileModifiedEvent "/w/a.txt"] tracked_world))
    both_repairs.
Proof. repeat constructor; vm_compute; done. Qed.

(** C4, counterexample.  An attribute notification on the tracked file puts
    one event in the queue, and its type is Modified, not AttributeModified,
    under either repair of the stray [continue]. *)
Lemma attrib_signal_event_type :
  Forall (λ stray_continue,
    _queue_events_except_renames_and_dir_modifications
      sample_absolute_path stray_continue
      [select_kevent 3 WATCHDOG_KQ_FILTER WATCHDOG_KQ_EV_FLAGS KQ_NOTE_ATTRIB]
      tracked_world
    = Ok (mkDeferred ∅ ∅ ∅)
         (set_event_queue [FileModifiedEvent "/w/a.txt"] tracked_world) ∧
    event_type (FileModifiedEvent "/w/a.txt") = EVENT_TYPE_MODIFIED ∧
    event_type (FileModifiedEvent "/w/a.txt") ≠ EVENT_TYPE_ATTRIBUTE_MODIFIED)
    both_repairs.
Proof. repeat constructor; vm_compute; done. Qed.

(** ** The theorems at the sample states *)

(** A renamed tracked file: [/w/a.txt], inode 10, is [/w/b.txt] in the new
    snapshot; and the same file gone from the new snapshot.  Then the rename
    notification for it as the batch processing of the loaded module meets
    it. *)
Lemma queue_file_renamed_blocks_witness :
  let new_snapshot :=
    mkSnapshot {["/w/b.txt" := mkEntry false 10 1 0]} {[10 := "/w/b.txt"]} in
  let stuck := ds_locked (set_lock 1 tracked_world) in
  _queue_file_renamed sample_absolute_path ContinueIsReturn "/w/a.txt"
                      snapshot_a new_snapshot tracked_world = Blocked stuck ∧
  _queue_file_renamed sample_absolute_path ContinueIsDeleted "/w/a.txt"
                      snapshot_a empty_snapshot tracked_world = Blocked stuck ∧
  w_event_queue stuck = [] ∧
  handle_kev sample_absolute_path ContinueIsReturn
    (select_kevent 3 WATCHDOG_KQ_FILTER WATCHDOG_KQ_EV_FLAGS KQ_NOTE_RENAME)
    (mkDeferred ∅ ∅ ∅) tracked_world
  = Raise (NameError "ref_snapshot") tracked_world.
Proof.
  intros new_snapshot stuck.
  destruct (queue_file_renamed_blocks sample_absolute_path ContinueIsReturn
              "/w/a.txt" snapshot_a new_snapshot tracked_world
              (mkEntry false 10 0 0) descriptor_a eq_refl eq_refl eq_refl)
    as (Hmoved & Hqueue & _ & Hcaller).
  destruct (queue_file_renamed_blocks sample_absolute_path ContinueIsDeleted
              "/w/a.txt" snapshot_a empty_snapshot tracked_world
              (mkEntry false 10 0 0) descriptor_a eq_refl eq_refl eq_refl)
    as (Hdeleted & _).
  split; [exact Hmoved|]. split; [exact Hdeleted|]. split; [exact Hqueue|].
  apply (Hcaller _ _ descriptor_a); vm_compute; try reflexivity.
  discriminate.
Defined.

(** An attribute notification for the tracked file, then a notification on
    the unknown handle 9, then one more for the tracked file. *)
Lemma unknown_handle_raises_witness :
  let flags ident fflags :=
    select_kevent ident WATCHDOG_KQ_FILTER WATCHDOG_KQ_EV_FLAGS fflags in
  _queue_events_except_renames_and_dir_modifications
    sample_absolute_path ContinueIsReturn
    ([flags 3 KQ_NOTE_ATTRIB] ++ flags 9 KQ_NOTE_WRITE :: [flags 3 KQ_NOTE_WRITE])
    tracked_world
  = Raise KeyError (enqueue [FileModifiedEvent "/w/a.txt"] tracked_world).
Proof.
  intros flags.
  apply (unknown_handle_raises sample_absolute_path ContinueIsReturn
           [flags 3 KQ_NOTE_ATTRIB]
           (flags 9 KQ_NOTE_WRITE) [flags 3 KQ_NOTE_WRITE] tracked_world
           (mkDeferred ∅ ∅ ∅));
    vm_compute; reflexivity.
Defined.

(** Attribute and write flags together on the tracked file. *)
Lemma attrib_signal_queues_modified_witness :
  handle_kev sample_absolute_path ContinueIsReturn
    (select_kevent 3 WATCHDOG_KQ_FILTER WATCHDOG_KQ_EV_FLAGS
                   (Z.lor KQ_NOTE_ATTRIB KQ_NOTE_WRITE))
    (mkDeferred ∅ ∅ ∅) tracked_world
  = Ok (mkDeferred ∅ ∅ ∅)
       (enqueue [FileModifiedEvent "/w/a.txt"] tracked_world).
Proof.
  apply (attrib_signal_queues_modified sample_absolute_path ContinueIsReturn
           _ _ _ descriptor_a);
    vm_compute; try reflexivity.
  discriminate.
Defined.

(** The spec's own example, the tracked [/w/a.txt] renamed to [/w/b.txt], and
    its deletion; and, in the module as it is loaded, a move between two
    paths that have no descriptor. *)
Lemma queue_event_never_rekeys_witness :
  let stuck := ds_locked (set_lock 1 tracked_world) in
  let w := idle_world module_globals ∅ in
  queue_event sample_absolute_path (FileMovedEvent "/w/a.txt" "/w/b.txt")
              tracked_world = Blocked stuck ∧
  queue_event sample_absolute_path (FileDeletedEvent "/w/a.txt")
              tracked_world = Blocked stuck ∧
  w_event_queue stuck = [] ∧
  ds_descriptor_for_path (w_descriptors stuck) !! "/w/a.txt"
  = Some descriptor_a ∧
  queue_event sample_absolute_path (FileMovedEvent "/w/c.txt" "/w/d.txt") w
  = Raise (NameError "kev") w.
Proof.
  intros stuck w.
  destruct (queue_event_never_rekeys sample_absolute_path
              (FileMovedEvent "/w/a.txt" "/w/b.txt") tracked_world
              eq_refl (or_introl eq_refl)) as (Hmoved & _).
  destruct (Hmoved descriptor_a eq_refl) as (Hm & Hq & _ & Hp).
  destruct (queue_event_never_rekeys sample_absolute_path
              (FileDeletedEvent "/w/a.txt") tracked_world
              eq_refl (or_intror eq_refl)) as (Hdeleted & _).
  destruct (Hdeleted descriptor_a eq_refl) as (Hd & _).
  destruct (queue_event_never_rekeys sample_absolute_path
              (FileMovedEvent "/w/c.txt" "/w/d.txt") w
              eq_refl (or_introl eq_refl)) as (_ & _ & Hshipped).
  split; [exact Hm|]. split; [exact Hd|]. split; [exact Hq|].
  split; [exact Hp|].
  apply (Hshipped "/w/d.txt"); vm_compute; reflexivity.
Defined.

(** The handler of [_register] at work, in a namespace where [kev] is bound
    so that the constructor gets as far as [os.open], on a path that is gone
    when it is opened. *)
Lemma register_vanished_where_kev_is_bound :
  let w := idle_world kev_bound_globals {["/w/tmp" := ENOENT]} in
  _register sample_absolute_path "/w/tmp" false w
  = Ok tt (enqueue [FileCreatedEvent "/w/tmp"; FileDeletedEvent "/w/tmp"] w).
Proof.
  intros w.
  apply (_register_vanished sample_absolute_path sample_absolute_path_idem
           "/w/tmp" false w); vm_compute; reflexivity.
Qed.

(** A path that is gone when it is opened, and a path that may not be opened
    (EACCES), in the module as it is loaded. *)
Lemma register_raises_name_error_witness :
  let w := idle_world module_globals
                      {["/w/tmp" := ENOENT; "/w/secret" := 13]} in
  _register sample_absolute_path "/w/tmp" false w = Raise (NameError "kev") w ∧
  _register sample_absolute_path "/w/secret" true w
  = Raise (NameError "kev") w ∧
  w_event_queue w = [].
Proof.
  intros w. split; [|split; [|reflexivity]].
  - apply (register_raises_name_error sample_absolute_path "/w/tmp" false w);
      vm_compute; reflexivity.
  - apply (register_raises_name_error sample_absolute_path "/w/secret" true w);
      vm_compute; reflexivity.
Defined.


(** The handle of the tracked file before and after [remove] of its path,
    and a handle that was never registered. *)
Lemma get_for_fd_after_remove_witness :
  let stuck := ds_locked tracked_world in
  get_for_fd 9 tracked_world = Raise KeyError tracked_world ∧
  get_for_fd 3 tracked_world = Ok descriptor_a tracked_world ∧
  remove sample_absolute_path "/w/a.txt" tracked_world = Blocked stuck ∧
  get_for_fd 3 stuck = Blocked stuck.
Proof.
  intros stuck.
  destruct (get_for_fd_after_remove sample_absolute_path "/w/a.txt"
              tracked_world descriptor_a eq_refl eq_refl eq_refl)
    as (Hunknown & Hbefore & Hremove & _ & Hafter & _).
  split; [apply Hunknown; vm_compute; reflexivity|].
  split; [exact Hbefore|]. split; [exact Hremove|exact Hafter].
Defined.

(** All five flags at once are a deletion; attribute, write and rename
    together are the attribute branch. *)
Lemma classification_precedence_witness :
  let acc := mkDeferred ∅ ∅ ∅ in
  let flags fflags :=
    select_kevent 3 WATCHDOG_KQ_FILTER WATCHDOG_KQ_EV_FLAGS fflags in
  handle_kev sample_absolute_path ContinueIsReturn (flags 47) acc tracked_world
  = (_ ← queue_event sample_absolute_path (FileDeletedEvent "/w/a.txt");
     mret acc) tracked_world ∧
  handle_kev sample_absolute_path ContinueIsReturn (flags 42) acc tracked_world
  = (_ ← queue_event sample_absolute_path (FileModifiedEvent "/w/a.txt");
     mret acc) tracked_world.
Proof.
  intros acc flags.
  assert (get_for_fd 3 tracked_world = Ok descriptor_a tracked_world) as Hget
    by (vm_compute; reflexivity).
  split.
  - apply (proj1 (classification_precedence sample_absolute_path
                    ContinueIsReturn (flags 47)
                    acc tracked_world descriptor_a tracked_world Hget)).
    reflexivity.
  - apply (proj1 (proj2 (classification_precedence sample_absolute_path
                           ContinueIsReturn
                           (flags 42) acc tracked_world descriptor_a
                           tracked_world Hget)));
      reflexivity.
Defined.

(** ** The further theorems at the sample states *)

Lemma tracked_world_consistent : consistent tracked_world.
Proof.
  split; unfold tracked_world; cbn [w_descriptors ds_descriptor_for_path
    ds_descriptor_for_fd ds_descriptors ds_kevents w_open_fds].
  - intros p d [<- <-]%lookup_singleton_Some.
    repeat split; try (vm_compute; reflexivity);
      try by apply elem_of_singleton_2.
  - intros fd d [<- <-]%lookup_singleton_Some.
    repeat split; try (vm_compute; reflexivity);
      try by (apply elem_of_union_l; apply elem_of_singleton_2).
  - intros k d [<- <-]%lookup_singleton_Some.
    repeat split; vm_compute; reflexivity.
  - intros kev ->%elem_of_singleton. exists descriptor_a.
    split; vm_compute; reflexivity.
Qed.

(** [add] of a path in the module as it is loaded, and [add] of the tracked
    path under another spelling and with the other directory flag. *)
Lemma add_registers_nothing_witness :
  let w := idle_world module_globals ∅ in
  (∃ ex w', add sample_absolute_path "a.txt" false w = Raise ex w' ∧
            ex = NameError "kev" ∧ w' = w) ∧
  add sample_absolute_path "a.txt" true tracked_world = Ok tt tracked_world.
Proof.
  intros w. split.
  - destruct (proj2 (add_registers_nothing sample_absolute_path "a.txt" false
                       w eq_refl) eq_refl)
      as (ex & w' & Hadd & _ & _ & _ & _ & _ & Hex).
    exists ex, w'. split; [exact Hadd|].
    destruct ex; try (vm_compute in Hadd; discriminate Hadd).
    destruct Hex as (-> & _ & ->). split; reflexivity.
  - apply (proj1 (add_registers_nothing sample_absolute_path "a.txt" true
                    tracked_world eq_refl) descriptor_a).
    vm_compute. reflexivity.
Defined.

(** [_remove_descriptor] of the tracked file's descriptor: all three entries
    are taken out, the call raises, and the handle stays open. *)
Lemma _remove_descriptor_never_returns_witness :
  ∃ w', _remove_descriptor descriptor_a tracked_world = Raise TypeError w' ∧
        ds_descriptor_for_path (w_descriptors w') !! "/w/a.txt" = None ∧
        w_open_fds w' = w_open_fds tracked_world.
Proof.
  destruct (_remove_descriptor_never_returns descriptor_a tracked_world)
    as (ex & w' & Hrun & Hfds & _ & [(-> & _ & _ & _ & Hp)|(-> & Hnot)]).
  - exists w'. split; [exact Hrun|]. split; [exact Hp|exact Hfds].
  - exfalso. apply Hnot. repeat split; eexists; vm_compute; reflexivity.
Defined.

(** A lookup on a set whose lock is held, and [remove] of the tracked path on
    a set whose lock is free. *)
Lemma descriptor_set_lock_discipline_witness :
  call_method sample_absolute_path (MethodGetItem "a.txt")
              (ds_locked tracked_world)
  = Blocked (ds_locked tracked_world) ∧
  match call_method sample_absolute_path (MethodRemove "a.txt") tracked_world
  with
  | Ok _ w' | Raise _ w' => ds_lock (w_descriptors w') = false
  | Blocked w' =>
      w' = ds_locked tracked_world ∧
      ∃ path, MethodRemove "a.txt" = MethodRemove path ∧
              is_Some (ds_descriptor_for_path (w_descriptors tracked_world)
                         !! sample_absolute_path path)
  | OutOfFuel => False
  end.
Proof.
  split.
  - apply (proj1 (descriptor_set_lock_discipline
                    sample_absolute_path
                    (MethodGetItem "a.txt") (ds_locked tracked_world))).
    reflexivity.
  - apply (proj2 (descriptor_set_lock_discipline
                    sample_absolute_path
                    (MethodRemove "a.txt") tracked_world)).
    reflexivity.
Defined.

(** Calls on a new set in the module as it is loaded: two paths added, one of
    them a second time under another spelling, a path removed, the set
    cleared, and lookups. *)
Lemma lookups_never_find_witness :
  let w0 := idle_world module_globals ∅ in
  let w := call_methods sample_absolute_path
             [MethodAdd "a.txt" false; MethodAdd "/w/b" true;
              MethodAdd "/w/a.txt" false; MethodRemove "/w/b";
              MethodGetForFd 3; MethodClear; MethodKevents] w0 in
  w = w0 ∧
  __contains__ sample_absolute_path "a.txt" w = Ok false w ∧
  get_for_fd 3 w = Raise KeyError w ∧
  kevents w = Ok [] w.
Proof.
  intros w0 w.
  destruct (lookups_never_find sample_absolute_path
              [MethodAdd "a.txt" false; MethodAdd "/w/b" true;
               MethodAdd "/w/a.txt" false; MethodRemove "/w/b";
               MethodGetForFd 3; MethodClear; MethodKevents] w0 eq_refl)
    as (_ & _ & Hpath & Hfd & Hkevents & _ & Hsame).
  split; [apply Hsame; reflexivity|].
  split; [apply Hpath|]. split; [apply Hfd|exact Hkevents].
Defined.

(** [clear] on the emitter that tracks [/w/a.txt]. *)
Lemma clear_closes_everything_witness :
  ∃ w', clear tracked_world = Ok tt w' ∧
        w_descriptors w' = KeventDescriptorSet_init ∧
        3 ∉ w_open_fds w'.
Proof.
  destruct (clear_closes_everything tracked_world eq_refl)
    as (w' & Hrun & Hempty & _ & Hclosed & _).
  exists w'. repeat split; try assumption.
  apply (Hclosed tracked_world_consistent 3 descriptor_a).
  vm_compute. reflexivity.
Defined.


(** A renamed file that the reference snapshot has never seen: one that has
    no descriptor, under either repair of the stray [continue], and the
    tracked file with a reference snapshot that misses it. *)
Lemma queue_file_renamed_unknown_path_witness :
  let w := idle_world module_globals ∅ in
  let w' := enqueue [FileCreatedEvent "/w/tmp"; FileDeletedEvent "/w/tmp"] w in
  _queue_file_renamed sample_absolute_path ContinueIsReturn "/w/tmp"
                      snapshot_a empty_snapshot w = Ok tt w' ∧
  _queue_file_renamed sample_absolute_path ContinueIsDeleted "/w/tmp"
                      snapshot_a empty_snapshot w
  = Raise (UnboundLocalError "ref_stat_info") w' ∧
  _queue_file_renamed sample_absolute_path ContinueIsReturn "/w/a.txt"
                      empty_snapshot empty_snapshot tracked_world
  = Blocked (ds_locked (set_lock 1 (enqueue [FileCreatedEvent "/w/a.txt"]
                                            tracked_world))).
Proof.
  intros w w'. split; [|split].
  - apply (proj1 (proj2 (queue_file_renamed_unknown_path sample_absolute_path
                           ContinueIsReturn "/w/tmp" snapshot_a empty_snapshot
                           w eq_refl eq_refl)) eq_refl).
  - apply (proj1 (proj2 (queue_file_renamed_unknown_path sample_absolute_path
                           ContinueIsDeleted "/w/tmp" snapshot_a
                           empty_snapshot w eq_refl eq_refl)) eq_refl).
  - apply (proj1 (queue_file_renamed_unknown_path sample_absolute_path
                    ContinueIsReturn "/w/a.txt" empty_snapshot empty_snapshot
                    tracked_world eq_refl eq_refl) descriptor_a eq_refl).
Defined.

(** A batch of a write and an attribute notification on the tracked file. *)
Lemma batch_never_fills_files_renamed_witness :
  let batch :=
    [select_kevent 3 WATCHDOG_KQ_FILTER WATCHDOG_KQ_EV_FLAGS KQ_NOTE_WRITE;
     select_kevent 3 WATCHDOG_KQ_FILTER WATCHDOG_KQ_EV_FLAGS KQ_NOTE_ATTRIB] in
  let events := [FileModifiedEvent "/w/a.txt"; FileModifiedEvent "/w/a.txt"] in
  _queue_events_except_renames_and_dir_modifications
    sample_absolute_path ContinueIsReturn batch tracked_world
  = Ok (mkDeferred ∅ ∅ ∅) (set_event_queue events tracked_world) ∧
  files_renamed (mkDeferred ∅ ∅ ∅) = ∅ ∧
  w_event_queue tracked_world `prefix_of` events.
Proof.
  intros batch events.
  assert (_queue_events_except_renames_and_dir_modifications
            sample_absolute_path ContinueIsReturn batch tracked_world
          = Ok (mkDeferred ∅ ∅ ∅) (set_event_queue events tracked_world))
    as Hrun by (vm_compute; reflexivity).
  split; [exact Hrun|].
  exact (batch_never_fills_files_renamed sample_absolute_path
           ContinueIsReturn batch tracked_world _ _ Hrun).
Defined.

(** The same batch, read off the flags of its notifications. *)
Lemma batch_of_modifications_in_order_witness :
  _queue_events_except_renames_and_dir_modifications
    sample_absolute_path ContinueIsReturn
    [select_kevent 3 WATCHDOG_KQ_FILTER WATCHDOG_KQ_EV_FLAGS KQ_NOTE_WRITE;
     select_kevent 3 WATCHDOG_KQ_FILTER WATCHDOG_KQ_EV_FLAGS KQ_NOTE_ATTRIB]
    tracked_world
  = Ok (mkDeferred ∅ ∅ ∅)
       (enqueue [FileModifiedEvent "/w/a.txt"; FileModifiedEvent "/w/a.txt"]
                tracked_world).
Proof.
  apply (batch_of_modifications_in_order sample_absolute_path
           ContinueIsReturn);
    [reflexivity|].
  repeat constructor; exists descriptor_a;
    (split; [vm_compute; reflexivity|]);
    (split; [vm_compute; reflexivity|]);
    (split; [|vm_compute; reflexivity]).
  - right. split; [vm_compute; discriminate|reflexivity].
  - left. vm_compute. discriminate.
Defined.

(** A write and a rename notification on the tracked directory [/w]. *)
Lemma batch_of_directories_is_deferred_witness :
  ∃ acc,
    _queue_events_except_renames_and_dir_modifications
      sample_absolute_path ContinueIsReturn
      [select_kevent 3 WATCHDOG_KQ_FILTER WATCHDOG_KQ_EV_FLAGS KQ_NOTE_WRITE;
       select_kevent 3 WATCHDOG_KQ_FILTER WATCHDOG_KQ_EV_FLAGS KQ_NOTE_RENAME]
      resync_world
    = Ok acc resync_world ∧
    files_renamed acc = ∅ ∧
    "/w" ∈ dirs_renamed acc ∧ "/w" ∈ dirs_modified acc.
Proof.
  destruct (batch_of_directories_is_deferred sample_absolute_path
              ContinueIsReturn
              [select_kevent 3 WATCHDOG_KQ_FILTER WATCHDOG_KQ_EV_FLAGS
                             KQ_NOTE_WRITE;
               select_kevent 3 WATCHDOG_KQ_FILTER WATCHDOG_KQ_EV_FLAGS
                             KQ_NOTE_RENAME]
              [("/w", false); ("/w", true)] resync_world eq_refl)
    as (acc & Hrun & Hfiles & Hrenamed & Hmodified).
  - repeat constructor; exists descriptor_w;
      repeat (split; [vm_compute; reflexivity|]).
    + vm_compute. discriminate.
    + vm_compute. discriminate.
  - exists acc. repeat split; try assumption.
    + apply Hrenamed. apply list_elem_of_In. simpl. auto.
    + apply Hmodified. apply list_elem_of_In. simpl. auto.
Defined.

(** The walk of a new emitter over a tree of three entries, and a walk over
    the tracked file and one more, in the module as it is loaded. *)
Lemma walk_stops_at_first_new_entry_witness :
  let w := idle_world module_globals ∅ in
  walk_with_callback sample_absolute_path
    [("a.txt", mkEntry false 10 0 0); ("gone", mkEntry false 11 0 0);
     ("sub", mkEntry true 12 0 0)] w
  = Raise (NameError "kev") w ∧
  walk_with_callback sample_absolute_path
    ([("a.txt", mkEntry false 10 0 0)]
       ++ [("b.txt", mkEntry false 11 0 0)]) tracked_world
  = Raise (NameError "kev") tracked_world.
Proof.
  intros w. split.
  - apply (proj2 (walk_stops_at_first_new_entry sample_absolute_path []
                    "a.txt" (mkEntry false 10 0 0)
                    [("gone", mkEntry false 11 0 0);
                     ("sub", mkEntry true 12 0 0)] w
                    eq_refl eq_refl (Forall_nil_2 _) eq_refl)).
  - assert (Forall (λ entry : string * DirectoryEntry,
                      is_Some (ds_descriptor_for_path
                                 (w_descriptors tracked_world)
                                 !! sample_absolute_path entry.1))
                   [("a.txt", mkEntry false 10 0 0)]) as Hregistered.
    { constructor; [|constructor]. exists descriptor_a. vm_compute.
      reflexivity. }
    apply (proj2 (walk_stops_at_first_new_entry sample_absolute_path
                    [("a.txt", mkEntry false 10 0 0)]
                    "b.txt" (mkEntry false 11 0 0) [] tracked_world
                    eq_refl eq_refl Hregistered eq_refl)).
Defined.

(** The emitter that tracks [/w/a.txt], its kqueue on handle 4, when its
    thread ends. *)
Lemma on_thread_exit_releases_witness :
  let w := set_open_fds ({[4]} ∪ w_open_fds tracked_world) tracked_world in
  ∃ w', on_thread_exit 4 w = Ok tt w' ∧
        w_descriptors w' = KeventDescriptorSet_init ∧
        (4 ∉ w_open_fds w') ∧ 3 ∉ w_open_fds w'.
Proof.
  intros w.
  destruct (on_thread_exit_releases 4 w eq_refl)
    as (w' & Hrun & Hempty & Hkq & Hclosed & _).
  exists w'. repeat split; try assumption.
  apply (Hclosed ("/w/a.txt", false) descriptor_a).
  vm_compute. reflexivity.
Defined.


(** * [watchdog.utils] *)

Lemma split_nonempty sep s : split sep s ≠ [].
Proof.
  destruct s as [|c rest]; simpl; [done|].
  case_decide; [done|]. by destruct (split sep rest).
Qed.

Lemma split_dot_free s : dot_free s = true → split dot s = [s].
Proof.
  induction s as [|c rest IH]; simpl; [done|].
  intros [Hc Hrest]%andb_true_iff.
  apply negb_true_iff, bool_decide_eq_false in Hc.
  rewrite decide_False by done. by rewrite IH.
Qed.

Lemma split_at_last_dot m c :
  dot_free c = true → split dot (m +:+ String dot c) = split dot m ++ [c].
Proof.
  intros Hc. induction m as [|a m IH]; simpl.
  - by rewrite split_dot_free.
  - case_decide; [by rewrite IH|].
    rewrite IH. pose proof (split_nonempty dot m).
    by destruct (split dot m).
Qed.

Lemma join_split s : join dot (split dot s) = s.
Proof.
  induction s as [|a s IH]; simpl; [done|].
  pose proof (split_nonempty dot s) as Hne.
  case_decide as Ha.
  - subst a. destruct (split dot s) as [|p ps]; [done|].
    change (join dot (EmptyString :: p :: ps))
      with (String dot (join dot (p :: ps))).
    by rewrite IH.
  - destruct (split dot s) as [|p [|q ps]]; [done|..].
    + simpl in *. by rewrite IH.
    + change (join dot (String a p :: q :: ps))
        with (String a (p +:+ String dot (join dot (q :: ps)))).
      f_equal. exact IH.
Qed.

Lemma last_snoc (pieces : list string) c : List.last (pieces ++ [c]) EmptyString = c.
Proof. apply List.last_last. Qed.

(** X16.  [load_class] cuts the dotted path at its last dot: for a path
    [module_name.klass_name] whose class name has no dot, exactly the module
    [module_name] is imported (whatever dots the module name has), and the
    result is the module's attribute [klass_name] if it is there and is not
    [None], the [AttributeError] if not, the import's exception if the import
    fails and [KeyError] if the import leaves no such module in
    [sys.modules].  A path without a dot raises [ValueError] and imports
    nothing. *)
Theorem load_class_cuts_at_last_dot (__import__ : importer) :
  (∀ module_name klass_name,
     dot_free klass_name = true →
     load_class __import__ (module_name +:+ String dot klass_name) =
       ([module_name],
        match __import__ module_name with
        | inl (LoadImportError _) =>
            inl (LoadImportError ("No module named " +:+ module_name))
        | inl e => inl e
        | inr sys_modules =>
            match sys_modules !! module_name with
            | None => inl (LoadKeyError module_name)
            | Some module =>
                match module !! klass_name with
                | Some (PyObject c) => inr (PyObject c)
                | _ => inl (LoadAttributeError
                              ("Module " +:+ module_name
                               +:+ " does not have class attribute "
                               +:+ klass_name))
                end
            end
        end)) ∧
  (∀ dotted_path,
     dot_free dotted_path = true →
     load_class __import__ dotted_path
     = ([], inl (LoadValueError
                   ("Dotted module path " +:+ dotted_path
                    +:+ " must contain a module name and a classname")))).
Proof.
  split.
  - intros module_name klass_name Hc. unfold load_class.
    rewrite (split_at_last_dot _ _ Hc), List.removelast_last, last_snoc.
    rewrite join_split.
    pose proof (split_nonempty dot module_name) as Hne.
    rewrite decide_True
      by (rewrite length_app; simpl; destruct (split dot module_name);
          [done|simpl; lia]).
    unfold load_module, has_attribute.
    destruct (__import__ module_name) as [[]|sys_modules]; try done.
    destruct (sys_modules !! module_name) as [module|]; [|done].
    by destruct (module !! klass_name) as [[]|].
  - intros dotted_path Hfree. unfold load_class.
    by rewrite (split_dot_free _ Hfree).
Qed.

(** The class [Observer] of the package module [watchdog.observers], in an
    interpreter that knows this module alone. *)
Lemma load_class_cuts_at_last_dot_witness :
  let observers : pymodule := {["Observer" := PyObject "Observer"]} in
  let __import__ : importer := λ name,
    if decide (name = "watchdog.observers")
    then inr {["watchdog.observers" := observers]}
    else inl (LoadImportError name) in
  load_class __import__ "watchdog.observers.Observer"
  = (["watchdog.observers"], inr (PyObject "Observer")) ∧
  load_class __import__ "watchdog.observers.Watcher"
  = (["watchdog.observers"],
     inl (LoadAttributeError
            "Module watchdog.observers does not have class attribute Watcher")) ∧
  load_class __import__ "Observer"
  = ([], inl (LoadValueError
                "Dotted module path Observer must contain a module name and a classname")).
Proof.
  intros observers __import__. split; [|split].
  - exact (proj1 (load_class_cuts_at_last_dot __import__)
             "watchdog.observers" "Observer" eq_refl).
  - exact (proj1 (load_class_cuts_at_last_dot __import__)
             "watchdog.observers" "Watcher" eq_refl).
  - exact (proj2 (load_class_cuts_at_last_dot __import__) "Observer" eq_refl).
Defined.

(** * [tests/utils.py] *)

Lemma comprehension_public o names all :
  comprehension (isattribute false o) names = inr all →
  comprehension (isattribute true o) names
  = inr (filter (λ attribute, startswith attribute "_" = false) all).
Proof.
  revert all. induction names as [|a names IH]; intros all; simpl.
  - by intros [= <-].
  - destruct (getattr o a) as [e|callable] eqn:Hget; [done|].
    destruct (comprehension (isattribute false o) names) as [e|kept];
      [done|].
    intros [= <-]. rewrite (IH kept eq_refl).
    destruct (startswith a "_") eqn:Hs.
    + destruct callable; simpl; [done|].
      by rewrite filter_cons_False by (by rewrite Hs).
    + destruct callable; simpl; [done|].
      by rewrite filter_cons_True.
Qed.

Lemma comprehension_returns o names :
  (∀ a, a ∈ names → startswith a "_" = false → ∃ c, getattr o a = inr c) →
  ∃ public,
    comprehension (isattribute true o) names = inr public ∧
    ∀ a, a ∈ public ↔
         a ∈ names ∧ startswith a "_" = false ∧ getattr o a = inr false.
Proof.
  induction names as [|a names IH]; intros Hget; simpl.
  - exists []. split; [done|]. intros a. set_solver.
  - destruct IH as (public & -> & Hpublic).
    { intros b Hb. apply Hget. by right. }
    destruct (startswith a "_") eqn:Hs.
    + exists public. split; [done|]. intros b. rewrite Hpublic.
      rewrite elem_of_cons. split; [naive_solver|].
      intros ([->|?] & ? & ?); [congruence|done].
    + destruct (Hget a) as [c Hc]; [by left|done|]. rewrite Hc.
      destruct c; simpl.
      * exists public. split; [done|]. intros b. rewrite Hpublic.
        rewrite elem_of_cons. split; [naive_solver|].
        intros ([->|?] & ? & ?); [congruence|done].
      * exists (a :: public). split; [done|]. intros b.
        rewrite !elem_of_cons, Hpublic. naive_solver.
Qed.

(** X17.  [list_attributes]: whenever the full listing
    ([only_public=False]) returns, the public listing returns the full one
    without the names that start with an underscore, in the same order; and
    the public listing never reads an attribute whose name starts with an
    underscore: it returns as soon as [getattr] succeeds on the other names
    of [dir(o)], and lists exactly those of them whose value is not
    callable. *)
Theorem list_attributes_only_public o :
  (∀ all, list_attributes o false = inr all →
     list_attributes o true
     = inr (filter (λ attribute, startswith attribute "_" = false) all)) ∧
  ((∀ a, a ∈ dir o → startswith a "_" = false → ∃ c, getattr o a = inr c) →
   ∃ public,
     list_attributes o true = inr public ∧
     ∀ a, a ∈ public ↔
          a ∈ dir o ∧ startswith a "_" = false ∧ getattr o a = inr false).
Proof.
  split.
  - apply comprehension_public.
  - apply comprehension_returns.
Qed.

(** An object with a private attribute that cannot be read, a method and two
    plain attributes: the full listing raises, the public one returns. *)
Lemma list_attributes_only_public_witness :
  let o := mkObject ["_cache"; "close"; "fd"; "path"]
             (λ name, if decide (name = "_cache") then inl "AttributeError"
                      else inr (bool_decide (name = "close"))) in
  list_attributes o false = inl "AttributeError" ∧
  ∃ public, list_attributes o true = inr public ∧
            ("fd" ∈ public) ∧ ("_cache" ∉ public) ∧ ("close" ∉ public).
Proof.
  intros o. split; [reflexivity|].
  destruct (proj2 (list_attributes_only_public o)) as (public & Hrun & Hin).
  - intros a Ha Hs. unfold o, getattr.
    destruct (decide (a = "_cache")) as [->|]; [discriminate Hs|eauto].
  - exists public. split; [exact Hrun|]. rewrite !Hin.
    repeat split.
    + apply list_elem_of_In. simpl. auto.
    + intros (_ & Hs & _). discriminate Hs.
    + intros (_ & _ & Hc). discriminate Hc.
Defined.
